(** * MotdPE: the RakNet unconnected-ping prober

    A shallow embedding of [src/motdpe/MotdPE.cpp].  The routine
    [detail::QueryMotdImpl] talks to the socket layer (getaddrinfo, socket,
    setsockopt, sendto, recvfrom, close); the embedding threads the state of
    that layer through every call and records each call in a trace, grouped
    by iteration of the candidate loop.  The non-Windows branch of each
    [#ifdef _WIN32] is the one embedded, on an LP64 platform ([long] has 64
    bits). *)

From Stdlib Require Import ZArith List String Bool Lia.
From Stdlib.Strings Require Import Byte.
From Stdlib Require Import DecimalString.
From Stdlib Require Import Permutation.
Import ListNotations.

Local Open Scope string_scope.
Local Open Scope list_scope.
Local Open Scope Z_scope.

(** ** Data *)

(** [constexpr SocketType INVALID_SOCKET_VALUE = -1;] *)
Definition INVALID_SOCKET_VALUE : Z := -1.
(** [constexpr int SOCKET_ERROR_VALUE = -1;] *)
Definition SOCKET_ERROR_VALUE : Z := -1.

(** One node of the list returned by getaddrinfo; [ai_next] is the tail of
    the Rocq list, [ai_addrlen] the length of [ai_addr]. *)
Record addrinfo := mk_addrinfo {
  ai_family : Z;
  ai_addr : list byte
}.

(** [struct timeval]. *)
Record timeval := mk_timeval {
  tv_sec : Z;
  tv_usec : Z
}.

(** What can be thrown.  [detail::MotdException] derives from
    [std::runtime_error]; [StdException] is any other class derived from
    [std::exception]; [ForeignException] is a thrown value of any other
    type, which only [catch (...)] catches. *)
Inductive exn :=
| MotdException (what : string)
| StdException (what : string)
| ForeignException.

(** The outcome of a call that returns [A] or throws. *)
Inductive outcome (A : Type) :=
| Returns (a : A)
| Throws (e : exn).
Arguments Returns {A} a.
Arguments Throws {A} e.

(** A call of the socket layer, with its arguments and what it returned. *)
Inductive event :=
| EvGetAddrInfo (host service : string) (status : Z)
| EvSocket (family : Z) (ret : Z)
| EvSetRcvTimeo (fd : Z) (tv : timeval) (ret : Z)
| EvSendTo (fd : Z) (payload : list byte) (dest : list byte) (ret : Z)
| EvRecvFrom (fd : Z) (capacity : nat) (stored : list byte) (ret : Z)
| EvClose (fd : Z).

(** The socket layer.  [world] is its state (the network included).
    [net_recvfrom] yields the datagram that arrives within the socket's
    receive timeout, or [None] for a timeout or an error. *)
Record Platform := mk_Platform {
  world : Type;
  os_getaddrinfo : string -> string -> world -> world * (Z * list addrinfo);
  gai_strerror : Z -> string;
  os_socket : Z -> world -> world * Z;
  os_setsockopt : Z -> timeval -> world -> world * Z;
  os_sendto : Z -> list byte -> list byte -> world -> world * Z;
  net_recvfrom : Z -> world -> world * option (list byte);
  os_close : Z -> world -> world
}.

(** ** Integer arithmetic of the source *)

(** [static_cast<long>] of a 64-bit value: two's complement wrap-around. *)
Definition to_long (z : Z) : Z := (z + 2 ^ 63) mod 2 ^ 64 - 2 ^ 63.

(** The range of [std::chrono::milliseconds::rep] (a 64-bit signed integer). *)
Definition int64_range (z : Z) : Prop := - 2 ^ 63 <= z < 2 ^ 63.

(** Lines 197-199: [tv.tv_sec = static_cast<long>(timeoutMs / 1000);
    tv.tv_usec = static_cast<long>((timeoutMs % 1000) * 1000);].  C++ [/]
    and [%] truncate towards zero: [Z.quot] and [Z.rem]. *)
Definition timeval_of_ms (timeoutMs : Z) : timeval :=
  {| tv_sec := to_long (Z.quot timeoutMs 1000);
     tv_usec := to_long (Z.rem timeoutMs 1000 * 1000) |}.

(** [std::to_string(port)] and [std::format("{}", port)] of a [uint16_t]:
    decimal digits. *)
Definition to_string (port : N) : string :=
  NilZero.string_of_uint (N.to_uint port).

(** ** The probe packet *)

(** Lines 154-158: [static constexpr std::array<std::byte, 33> queryBuf]. *)
Definition queryBuf : list byte :=
  [x01; x00; x00; x00; x00; xff; xff;
   xc1; x1d; x00; xff; xff; x00; xfe;
   xfe; xfe; xfe; xfd; xfd; xfd; xfd;
   x12; x34; x56; x78; x9c; x18; x28;
   x7f; xe1; x64; x89; x8d].

(** [queryBuf.size()] *)
Definition queryBuf_size : nat := 33.

(** [recvBuf.size()] of [std::array<std::byte, 1024> recvBuf]. *)
Definition recvBuf_size : nat := 1024.

(** ** System calls as computations over the socket layer *)

Section Prober.

Context (P : Platform).

(** A computation: from the state of the socket layer to a value, the new
    state and the calls made, oldest first. *)
Definition Sys (A : Type) : Type := world P -> A * world P * list event.

Definition ret {A} (a : A) : Sys A := fun w => (a, w, []).

Definition bind {A B} (m : Sys A) (k : A -> Sys B) : Sys B :=
  fun w =>
    let '(a, w1, t1) := m w in
    let '(b, w2, t2) := k a w1 in
    (b, w2, t1 ++ t2).

Notation "x <- m ;; k" := (bind m (fun x => k))
  (at level 61, m at next level, right associativity).
Notation "m ;;; k" := (bind m (fun _ => k))
  (at level 61, right associativity).

Definition getaddrinfo (host service : string) : Sys (Z * list addrinfo) :=
  fun w =>
    let '(w', (status, res)) := os_getaddrinfo P host service w in
    ((status, res), w', [EvGetAddrInfo host service status]).

Definition socket (family : Z) : Sys Z :=
  fun w =>
    let '(w', fd) := os_socket P family w in
    (fd, w', [EvSocket family fd]).

Definition setsockopt_rcvtimeo (fd : Z) (tv : timeval) : Sys Z :=
  fun w =>
    let '(w', r) := os_setsockopt P fd tv w in
    (r, w', [EvSetRcvTimeo fd tv r]).

(** [sendto(fd, buf, len, 0, dest, destlen)]: the datagram is the first
    [len] bytes of [buf]. *)
Definition sendto (fd : Z) (buf : list byte) (len : nat) (dest : list byte)
  : Sys Z :=
  fun w =>
    let payload := firstn len buf in
    let '(w', r) := os_sendto P fd payload dest w in
    (r, w', [EvSendTo fd payload dest r]).

(** Overwrite the front of a buffer. *)
Definition store (bytes buf : list byte) : list byte :=
  bytes ++ skipn (List.length bytes) buf.

(** [recvfrom(fd, buf, len, 0, &from, &fromLen)]: on a datagram, its first
    [len] bytes are stored at the front of [buf] (the rest of a longer
    datagram is discarded) and their number is returned; otherwise [buf] is
    left as it was and -1 is returned. *)
Definition recvfrom (fd : Z) (buf : list byte) (len : nat)
  : Sys (Z * list byte) :=
  fun w =>
    match net_recvfrom P fd w with
    | (w', Some datagram) =>
        let stored := firstn len datagram in
        let n := Z.of_nat (List.length stored) in
        ((n, store stored buf), w', [EvRecvFrom fd len stored n])
    | (w', None) =>
        ((-1, buf), w', [EvRecvFrom fd len [] (-1)])
    end.

(** [SocketHandle::close()], run by the destructor at the end of each
    iteration: closes only a valid socket. *)
Definition close_handle (sock : Z) : Sys unit :=
  fun w =>
    if sock =? INVALID_SOCKET_VALUE then (tt, w, [])
    else (tt, os_close P sock w, [EvClose sock]).

(** [result.assign(p, n)] on bytes: the string of the first [n] bytes at
    [p]. *)
Definition assign (p : list byte) (n : nat) : string :=
  string_of_list_byte (firstn n p).

(** ** The candidate loop *)

(** The body of the loop at lines 187-233 for one candidate.  The value is
    the receive buffer as the iteration leaves it and [Some result] when
    the iteration sets [success] and breaks, [None] when it continues. *)
Definition attempt (addr : addrinfo) (timeoutMs : Z) (recvBuf : list byte)
  : Sys (list byte * option string) :=
  sock <- socket (ai_family addr) ;;
  if sock =? INVALID_SOCKET_VALUE then
    close_handle sock ;;; ret (recvBuf, None)
  else
    let tv := timeval_of_ms timeoutMs in
    r <- setsockopt_rcvtimeo sock tv ;;
    if r =? SOCKET_ERROR_VALUE then
      close_handle sock ;;; ret (recvBuf, None)
    else
      s <- sendto sock queryBuf queryBuf_size (ai_addr addr) ;;
      if s =? SOCKET_ERROR_VALUE then
        close_handle sock ;;; ret (recvBuf, None)
      else
        rv <- recvfrom sock recvBuf recvBuf_size ;;
        let '(recvLen, recvBuf') := rv in
        if 35 <? recvLen then
          let result := assign (skipn 35 recvBuf') (Z.to_nat recvLen - 35) in
          close_handle sock ;;; ret (recvBuf', Some result)
        else
          close_handle sock ;;; ret (recvBuf', None).

(** One iteration of the loop as recorded: the candidate and the calls
    made for it. *)
Definition iteration : Type := addrinfo * list event.

(** [for (addrinfo* addr = res; addr != nullptr; addr = addr->ai_next)]. *)
Fixpoint probe_loop (addrs : list addrinfo) (timeoutMs : Z)
  (recvBuf : list byte) (w : world P)
  : option string * world P * list iteration :=
  match addrs with
  | [] => (None, w, [])
  | addr :: next =>
      let '((recvBuf', r), w', evs) := attempt addr timeoutMs recvBuf w in
      match r with
      | Some result => (Some result, w', [(addr, evs)])
      | None =>
          let '(r', w'', its) := probe_loop next timeoutMs recvBuf' w' in
          (r', w'', (addr, evs) :: its)
      end
  end.

(** ** The probe routine *)

Definition dns_failed_message (status : Z) : string :=
  ("DNS resolution failed: " ++ gai_strerror P status)%string.

Definition all_failed_message (host : string) (port : N) : string :=
  ("All connection attempts failed for " ++ host ++ ":" ++ to_string port)%string.

(** What a run of the routine leaves behind. *)
Record run := mk_run {
  result : outcome string;
  final : world P;
  resolution : list event;
  iterations : list iteration
}.

(** All calls of a run in the order they were made. *)
Definition calls (r : run) : list event :=
  resolution r ++ List.concat (map snd (iterations r)).

(** [std::string QueryMotdImpl(std::string_view host, uint16_t port,
    std::chrono::milliseconds timeout)].  [recvBuf0] is what the
    uninitialised [recvBuf] holds on entry.  The release of the address
    list by [AddrInfoPtr] when the routine is left is not recorded. *)
Definition QueryMotdImpl (host : string) (port : N) (timeout : Z)
  (recvBuf0 : list byte) (w : world P) : run :=
  let portStr := to_string port in
  let '((status, res), w1, t1) := getaddrinfo host portStr w in
  if negb (status =? 0) then
    mk_run (Throws (MotdException (dns_failed_message status))) w1 t1 []
  else
    let timeoutMs := timeout in
    let '(r, w2, its) := probe_loop res timeoutMs recvBuf0 w1 in
    match r with
    | None =>
        mk_run (Throws (MotdException (all_failed_message host port))) w2 t1 its
    | Some result => mk_run (Returns result) w2 t1 its
    end.

(** [std::string queryMotd(host, port, timeout)]. *)
Definition queryMotd := QueryMotdImpl.

End Prober.

Arguments result {P} r.
Arguments final {P} r.
Arguments resolution {P} r.
Arguments iterations {P} r.
Arguments calls {P} r.

(** ** The continuation-based entry point *)

Section Continuations.

Context (P : Platform).
(** The state of the caller that the continuations act on. *)
Context (U : Type).

(** A [std::function<void(A)>]: empty, or a callable that changes the
    caller's state and returns normally ([None]) or throws. *)
Definition continuation (A : Type) : Type := option (A -> U -> U * option exn).

(** A call of a continuation, with its argument. *)
Inductive invocation :=
| OnSuccess (text : string)
| OnError (e : exn).

(** How the thread started by the entry point ends. *)
Record thread_end := mk_thread_end {
  caller : U;
  invoked : list invocation;
  escaped : option exn
}.

(** [if (onSuccess) { onSuccess(std::move(result)); }] *)
Definition call_onSuccess (onSuccess : continuation string) (text : string)
  (u : U) : thread_end :=
  match onSuccess with
  | Some f => let '(u', thrown) := f text u in
              mk_thread_end u' [OnSuccess text] thrown
  | None => mk_thread_end u [] None
  end.

(** [if (onError) { onError(e); }] *)
Definition call_onError (onError : continuation exn) (e : exn) (u : U)
  : thread_end :=
  match onError with
  | Some g => let '(u', thrown) := g e u in
              mk_thread_end u' [OnError e] thrown
  | None => mk_thread_end u [] None
  end.

(** The exception handed to [onError] by the two catch clauses of lines
    271-279: [catch (const std::exception& e)] passes [e] itself,
    [catch (...)] passes [std::runtime_error("Unknown exception")]. *)
Definition caught (e : exn) : exn :=
  match e with
  | MotdException _ | StdException _ => e
  | ForeignException => StdException "Unknown exception"
  end.

(** The body of the lambda run by the detached thread, lines 266-279, given
    the outcome of the call of [QueryMotdImpl] at line 267. *)
Definition thread_body (probe : outcome string)
  (onSuccess : continuation string) (onError : continuation exn) (u : U)
  : thread_end :=
  let tried :=
    match probe with
    | Returns text => call_onSuccess onSuccess text u
    | Throws e => mk_thread_end u [] (Some e)
    end in
  match escaped tried with
  | None => tried
  | Some e =>
      let handled := call_onError onError (caught e) (caller tried) in
      mk_thread_end (caller handled) (invoked tried ++ invoked handled)
        (escaped handled)
  end.

(** [void queryMotdAsync(host, port, onSuccess, onError, timeout)]: what the
    thread it starts does. *)
Definition queryMotdAsync (host : string) (port : N)
  (onSuccess : continuation string) (onError : continuation exn)
  (timeout : Z) (recvBuf0 : list byte) (w : world P) (u : U)
  : world P * thread_end :=
  let r := QueryMotdImpl P host port timeout recvBuf0 w in
  (final r, thread_body (result r) onSuccess onError u).

End Continuations.

Arguments caller {U} t.
Arguments invoked {U} t.
Arguments escaped {U} t.

(** ** Reading a trace *)

(** A reply longer than the 35-byte header was received. *)
Definition long_reply (e : event) : bool :=
  match e with
  | EvRecvFrom _ _ _ n => 35 <? n
  | _ => false
  end.

(** The iteration received a reply longer than 35 bytes. *)
Definition won (it : iteration) : bool := existsb long_reply (snd it).

(** The iteration went on without such a reply. *)
Definition lost (it : iteration) : bool := negb (won it).

Definition is_socket_call (e : event) : bool :=
  match e with EvSocket _ _ => true | _ => false end.

Definition is_open (e : event) : bool :=
  match e with
  | EvSocket _ fd => negb (fd =? INVALID_SOCKET_VALUE)
  | _ => false
  end.

Definition is_close (e : event) : bool :=
  match e with EvClose _ => true | _ => false end.

Definition is_send (e : event) : bool :=
  match e with EvSendTo _ _ _ _ => true | _ => false end.

Definition is_receive (e : event) : bool :=
  match e with EvRecvFrom _ _ _ _ => true | _ => false end.

Definition timeout_refused (e : event) : bool :=
  match e with
  | EvSetRcvTimeo _ _ r => r =? SOCKET_ERROR_VALUE
  | _ => false
  end.

Definition count (p : event -> bool) (it : iteration) : nat :=
  List.length (filter p (snd it)).

(** Why an iteration went on to the next candidate. *)
Inductive failure :=
| SocketFailed
| TimeoutRefused
| SendFailed
| ReceiveFailed
| ReplyTooShort.

Definition event_failure (e : event) : option failure :=
  match e with
  | EvSocket _ fd =>
      if fd =? INVALID_SOCKET_VALUE then Some SocketFailed else None
  | EvSetRcvTimeo _ _ r =>
      if r =? SOCKET_ERROR_VALUE then Some TimeoutRefused else None
  | EvSendTo _ _ _ r =>
      if r =? SOCKET_ERROR_VALUE then Some SendFailed else None
  | EvRecvFrom _ _ _ n =>
      if n <? 0 then Some ReceiveFailed
      else if n <=? 35 then Some ReplyTooShort
      else None
  | _ => None
  end.

(** The first failure among the calls of an iteration. *)
Fixpoint failure_of (evs : list event) : option failure :=
  match evs with
  | [] => None
  | e :: evs' =>
      match event_failure e with
      | Some f => Some f
      | None => failure_of evs'
      end
  end.

(** The candidates that resolution yields in the given state. *)
Definition candidates (P : Platform) (host : string) (port : N) (w : world P)
  : list addrinfo :=
  snd (snd (os_getaddrinfo P host (to_string port) w)).

(** The status that resolution yields in the given state. *)
Definition resolution_status (P : Platform) (host : string) (port : N)
  (w : world P) : Z :=
  fst (snd (os_getaddrinfo P host (to_string port) w)).

(** ** A scripted socket layer

    Every call takes its answer from the front of a list; a list that has
    run out answers with failure. *)

Record script := mk_script {
  gai : Z * list addrinfo;
  sockets : list Z;
  sockopts : list Z;
  sends : list Z;
  datagrams : list (option (list byte))
}.

Definition Scripted : Platform :=
  {| world := script;
     os_getaddrinfo := fun _ _ w => (w, gai w);
     gai_strerror := fun _ => "Name or service not known";
     os_socket := fun _ w =>
       (mk_script (gai w) (tl (sockets w)) (sockopts w) (sends w) (datagrams w),
        hd (-1) (sockets w));
     os_setsockopt := fun _ _ w =>
       (mk_script (gai w) (sockets w) (tl (sockopts w)) (sends w) (datagrams w),
        hd (-1) (sockopts w));
     os_sendto := fun _ _ _ w =>
       (mk_script (gai w) (sockets w) (sockopts w) (tl (sends w)) (datagrams w),
        hd (-1) (sends w));
     net_recvfrom := fun _ w =>
       (mk_script (gai w) (sockets w) (sockopts w) (sends w) (tl (datagrams w)),
        hd None (datagrams w));
     os_close := fun _ w => w |}.

(** [AF_INET] and [AF_INET6] on Linux. *)
Definition AF_INET : Z := 2.
Definition AF_INET6 : Z := 10.

Definition addr4 : addrinfo := mk_addrinfo AF_INET [x7f; x00; x00; x01].
Definition addr6 : addrinfo := mk_addrinfo AF_INET6 [x00; x01].

(** An unconnected pong: 35 bytes of header, then the text. *)
Definition pong_header : list byte := repeat x1c 35.
Definition pong (text : string) : list byte :=
  pong_header ++ list_byte_of_string text.

(** Worlds of the scripted layer used below.  [answering]: one
    candidate, which answers.  [refusing]: two candidates, no socket for
    the first, and the socket of the second refuses the receive timeout.  [silent]: two candidates, no socket for
    the first and a 35-byte reply from the second.  [second_answers]: two
    candidates, the first answers with 35 bytes, the second with a text.
    [unresolved]: resolution fails with EAI_NONAME. *)
Definition answering : script :=
  mk_script (0, [addr4]) [3] [0] [33] [Some (pong "MCPE;x")].
Definition refusing : script :=
  mk_script (0, [addr6; addr4]) [-1; 3] [-1] [] [].
Definition silent : script :=
  mk_script (0, [addr6; addr4]) [-1; 3] [0] [33] [Some pong_header].
Definition second_answers : script :=
  mk_script (0, [addr6; addr4]) [3; 3] [0; 0] [33; 33]
    [Some pong_header; Some (pong "MCPE;y")].
Definition unresolved : script :=
  mk_script (-2, []) [3] [0] [33] [Some (pong "MCPE;x")].

(** The iteration of the run in [answering]. *)
Definition answering_iteration : iteration :=
  (addr4, [EvSocket 2 3; EvSetRcvTimeo 3 (mk_timeval 5 0) 0;
           EvSendTo 3 queryBuf [x7f; x00; x00; x01] 33;
           EvRecvFrom 3 1024 (pong "MCPE;x") 41; EvClose 3]).

(** Continuations that write what they get into a caller state of type
    [list string]. *)
Definition note_text : continuation (list string) string :=
  Some (fun text u => (text :: u, None)).
Definition what (e : exn) : string :=
  match e with
  | MotdException m | StdException m => m
  | ForeignException => ""
  end.
Definition note_error : continuation (list string) exn :=
  Some (fun e u => (what e :: u, None)).

(** ** Descriptors over a trace *)

(** Follows the descriptors that are open along a trace: a successful
    socket call opens its descriptor, close closes it, and every other call
    needs its descriptor open.  [None] when a call uses or closes a
    descriptor that is not open. *)
Fixpoint descriptors (open : list Z) (evs : list event) : option (list Z) :=
  match evs with
  | [] => Some open
  | EvGetAddrInfo _ _ _ :: evs' => descriptors open evs'
  | EvSocket _ fd :: evs' =>
      if fd =? INVALID_SOCKET_VALUE then descriptors open evs'
      else descriptors (fd :: open) evs'
  | EvSetRcvTimeo fd _ _ :: evs'
  | EvSendTo fd _ _ _ :: evs'
  | EvRecvFrom fd _ _ _ :: evs' =>
      if existsb (Z.eqb fd) open then descriptors open evs' else None
  | EvClose fd :: evs' =>
      if existsb (Z.eqb fd) open
      then descriptors (List.remove Z.eq_dec fd open) evs'
      else None
  end.

(** The largest number of descriptors open at once along a trace. *)
Fixpoint peak_open (open : nat) (evs : list event) : nat :=
  match evs with
  | [] => open
  | e :: evs' =>
      let open' := if is_open e then S open
                   else if is_close e then pred open
                   else open in
      Nat.max open (peak_open open' evs')
  end.

(** Continuations that throw after writing into the caller's state. *)
Definition throwing_text : continuation (list string) string :=
  Some (fun text u => (text :: u, Some (StdException "onSuccess failed"))).
Definition throwing_error : continuation (list string) exn :=
  Some (fun e u => (what e :: u, Some ForeignException)).

(** ** The owning wrappers [SocketHandle] and [AddrInfoPtr]

    The objects of a class are kept in a list: an object is named by its
    position and represented by the value of its one field ([mSocket], or
    [mAddrInfo] as an integer with 0 for [nullptr]).  A constructor adds
    an object at the end of the list. *)

(** Assignment to the field of the object at position [this]. *)
Fixpoint set_field (this : nat) (v : Z) (objs : list Z) : list Z :=
  match objs, this with
  | [], _ => []
  | _ :: objs', O => v :: objs'
  | x :: objs', S this' => x :: set_field this' v objs'
  end.

(** The resources held by the objects: the fields that differ from the
    null value of the class. *)
Definition owned (null : Z) (objs : list Z) : list Z :=
  filter (fun v => negb (v =? null)) objs.

(** The descriptors closed along a trace, oldest first. *)
Fixpoint closed (evs : list event) : list Z :=
  match evs with
  | [] => []
  | EvClose fd :: evs' => fd :: closed evs'
  | _ :: evs' => closed evs'
  end.

(** What a program does with the objects of one class. *)
Inductive handle_op :=
| New (resource : Z)
| MoveNew (other : nat)
| MoveAssign (this other : nat)
| Release (this : nat)
| Delete (this : nat).

(** Every operation names objects that exist, [n] objects existing at the
    start. *)
Fixpoint ops_ok (n : nat) (ops : list handle_op) : bool :=
  match ops with
  | [] => true
  | New _ :: ops' => ops_ok (S n) ops'
  | MoveNew other :: ops' => (other <? n)%nat && ops_ok (S n) ops'
  | MoveAssign this other :: ops' =>
      (this <? n)%nat && (other <? n)%nat && ops_ok n ops'
  | Release this :: ops' | Delete this :: ops' =>
      (this <? n)%nat && ops_ok n ops'
  end.

(** The resources handed to constructors by a program. *)
Fixpoint acquired (null : Z) (ops : list handle_op) : list Z :=
  match ops with
  | [] => []
  | New resource :: ops' => owned null [resource] ++ acquired null ops'
  | _ :: ops' => acquired null ops'
  end.

Section SocketHandle.

Context (P : Platform).

(** Line 79: [explicit SocketHandle(SocketType sock) noexcept :
    mSocket(sock) {}]. *)
Definition SocketHandle_new (sock : Z) (objs : list Z) : list Z :=
  objs ++ [sock].

(** Line 96: [operator SocketType() const noexcept { return mSocket; }]. *)
Definition SocketHandle_get (this : nat) (objs : list Z) : Z :=
  nth this objs INVALID_SOCKET_VALUE.

(** Line 97: [explicit operator bool() const noexcept
    { return mSocket != INVALID_SOCKET_VALUE; }]. *)
Definition SocketHandle_bool (this : nat) (objs : list Z) : bool :=
  negb (nth this objs INVALID_SOCKET_VALUE =? INVALID_SOCKET_VALUE).

(** Lines 99-108: [void close() noexcept]. *)
Definition SocketHandle_close (this : nat) (objs : list Z)
  : Sys P (list Z) :=
  fun w =>
    let mSocket := nth this objs INVALID_SOCKET_VALUE in
    if negb (mSocket =? INVALID_SOCKET_VALUE) then
      (set_field this INVALID_SOCKET_VALUE objs, os_close P mSocket w,
       [EvClose mSocket])
    else (objs, w, []).

(** Line 81: [~SocketHandle() noexcept { close(); }]. *)
Definition SocketHandle_delete (this : nat) (objs : list Z)
  : Sys P (list Z) :=
  SocketHandle_close this objs.

(** Line 86: [SocketHandle(SocketHandle&& other) noexcept :
    mSocket(std::exchange(other.mSocket, INVALID_SOCKET_VALUE)) {}]. *)
Definition SocketHandle_move_new (other : nat) (objs : list Z) : list Z :=
  let old := nth other objs INVALID_SOCKET_VALUE in
  set_field other INVALID_SOCKET_VALUE objs ++ [old].

(** Lines 88-94: [SocketHandle& operator=(SocketHandle&& other) noexcept]. *)
Definition SocketHandle_move_assign (this other : nat) (objs : list Z)
  : Sys P (list Z) :=
  if negb (this =? other)%nat then
    bind P (SocketHandle_close this objs) (fun objs1 =>
      let old := nth other objs1 INVALID_SOCKET_VALUE in
      ret P (set_field this old
               (set_field other INVALID_SOCKET_VALUE objs1)))
  else ret P objs.

Definition SocketHandle_step (op : handle_op) (objs : list Z)
  : Sys P (list Z) :=
  match op with
  | New sock => ret P (SocketHandle_new sock objs)
  | MoveNew other => ret P (SocketHandle_move_new other objs)
  | MoveAssign this other => SocketHandle_move_assign this other objs
  | Release this => SocketHandle_close this objs
  | Delete this => SocketHandle_delete this objs
  end.

Fixpoint SocketHandle_run (ops : list handle_op) (objs : list Z)
  : Sys P (list Z) :=
  match ops with
  | [] => ret P objs
  | op :: ops' =>
      bind P (SocketHandle_step op objs) (fun objs' =>
        SocketHandle_run ops' objs')
  end.

End SocketHandle.

(** [AddrInfoPtr]: a computation yields its value and the lists handed to
    freeaddrinfo, oldest first. *)

(** Line 116: [explicit AddrInfoPtr(addrinfo* ai) : mAddrInfo(ai) {}]. *)
Definition AddrInfoPtr_new (ai : Z) (objs : list Z) : list Z :=
  objs ++ [ai].

(** Line 141: [addrinfo* get() const noexcept { return mAddrInfo; }]. *)
Definition AddrInfoPtr_get (this : nat) (objs : list Z) : Z :=
  nth this objs 0.

(** Line 143: [explicit operator bool() const noexcept
    { return mAddrInfo != nullptr; }]. *)
Definition AddrInfoPtr_bool (this : nat) (objs : list Z) : bool :=
  negb (nth this objs 0 =? 0).

(** Lines 134-139: [void reset() noexcept]. *)
Definition AddrInfoPtr_reset (this : nat) (objs : list Z)
  : list Z * list Z :=
  let mAddrInfo := nth this objs 0 in
  if negb (mAddrInfo =? 0) then (set_field this 0 objs, [mAddrInfo])
  else (objs, []).

(** Lines 117-119: [~AddrInfoPtr() { if (mAddrInfo)
    freeaddrinfo(mAddrInfo); }].  The destructor leaves the field as it
    is; the object is gone with it, which the model marks by the null
    value. *)
Definition AddrInfoPtr_delete (this : nat) (objs : list Z)
  : list Z * list Z :=
  let mAddrInfo := nth this objs 0 in
  if negb (mAddrInfo =? 0) then (set_field this 0 objs, [mAddrInfo])
  else (objs, []).

(** Line 124: [AddrInfoPtr(AddrInfoPtr&& other) noexcept :
    mAddrInfo(std::exchange(other.mAddrInfo, nullptr)) {}]. *)
Definition AddrInfoPtr_move_new (other : nat) (objs : list Z) : list Z :=
  let old := nth other objs 0 in
  set_field other 0 objs ++ [old].

(** Lines 126-132: [AddrInfoPtr& operator=(AddrInfoPtr&& other) noexcept]. *)
Definition AddrInfoPtr_move_assign (this other : nat) (objs : list Z)
  : list Z * list Z :=
  if negb (this =? other)%nat then
    let '(objs1, freed) := AddrInfoPtr_reset this objs in
    let old := nth other objs1 0 in
    (set_field this old (set_field other 0 objs1), freed)
  else (objs, []).

Definition AddrInfoPtr_step (op : handle_op) (objs : list Z)
  : list Z * list Z :=
  match op with
  | New ai => (AddrInfoPtr_new ai objs, [])
  | MoveNew other => (AddrInfoPtr_move_new other objs, [])
  | MoveAssign this other => AddrInfoPtr_move_assign this other objs
  | Release this => AddrInfoPtr_reset this objs
  | Delete this => AddrInfoPtr_delete this objs
  end.

Fixpoint AddrInfoPtr_run (ops : list handle_op) (objs : list Z)
  : list Z * list Z :=
  match ops with
  | [] => (objs, [])
  | op :: ops' =>
      let '(objs1, freed1) := AddrInfoPtr_step op objs in
      let '(objs2, freed2) := AddrInfoPtr_run ops' objs1 in
      (objs2, freed1 ++ freed2)
  end.

(** The two classes alike, for a class whose null value is [null]: the
    objects after an operation and the resources it releases. *)
Section Owner.

Variable null : Z.

Definition own_release (this : nat) (objs : list Z) : list Z * list Z :=
  let r := nth this objs null in
  if negb (r =? null) then (set_field this null objs, [r]) else (objs, []).

Definition own_move_new (other : nat) (objs : list Z) : list Z :=
  let old := nth other objs null in
  set_field other null objs ++ [old].

Definition own_move_assign (this other : nat) (objs : list Z)
  : list Z * list Z :=
  if negb (this =? other)%nat then
    let '(objs1, released) := own_release this objs in
    let old := nth other objs1 null in
    (set_field this old (set_field other null objs1), released)
  else (objs, []).

Definition own_step (op : handle_op) (objs : list Z) : list Z * list Z :=
  match op with
  | New r => (objs ++ [r], [])
  | MoveNew other => (own_move_new other objs, [])
  | MoveAssign this other => own_move_assign this other objs
  | Release this | Delete this => own_release this objs
  end.

Fixpoint own_run (ops : list handle_op) (objs : list Z) : list Z * list Z :=
  match ops with
  | [] => (objs, [])
  | op :: ops' =>
      let '(objs1, released1) := own_step op objs in
      let '(objs2, released2) := own_run ops' objs1 in
      (objs2, released1 ++ released2)
  end.

End Owner.

(** ** What one iteration and the whole loop can look like

    The calls of one iteration for a candidate, and the payload it
    extracts when it wins. *)
Inductive attempt_shape (addr : addrinfo) (timeoutMs : Z)
  : list event -> option (list byte) -> Prop :=
| shape_no_socket :
    attempt_shape addr timeoutMs
      [EvSocket (ai_family addr) (-1)] None
| shape_no_timeout fd :
    fd <> -1 ->
    attempt_shape addr timeoutMs
      [EvSocket (ai_family addr) fd;
       EvSetRcvTimeo fd (timeval_of_ms timeoutMs) (-1);
       EvClose fd] None
| shape_no_send fd r :
    fd <> -1 -> r <> -1 ->
    attempt_shape addr timeoutMs
      [EvSocket (ai_family addr) fd;
       EvSetRcvTimeo fd (timeval_of_ms timeoutMs) r;
       EvSendTo fd queryBuf (ai_addr addr) (-1);
       EvClose fd] None
| shape_no_reply fd r s :
    fd <> -1 -> r <> -1 -> s <> -1 ->
    attempt_shape addr timeoutMs
      [EvSocket (ai_family addr) fd;
       EvSetRcvTimeo fd (timeval_of_ms timeoutMs) r;
       EvSendTo fd queryBuf (ai_addr addr) s;
       EvRecvFrom fd recvBuf_size [] (-1);
       EvClose fd] None
| shape_short_reply fd r s stored :
    fd <> -1 -> r <> -1 -> s <> -1 ->
    (List.length stored <= 35)%nat ->
    attempt_shape addr timeoutMs
      [EvSocket (ai_family addr) fd;
       EvSetRcvTimeo fd (timeval_of_ms timeoutMs) r;
       EvSendTo fd queryBuf (ai_addr addr) s;
       EvRecvFrom fd recvBuf_size stored (Z.of_nat (List.length stored));
       EvClose fd] None
| shape_reply fd r s stored :
    fd <> -1 -> r <> -1 -> s <> -1 ->
    (35 < List.length stored <= recvBuf_size)%nat ->
    attempt_shape addr timeoutMs
      [EvSocket (ai_family addr) fd;
       EvSetRcvTimeo fd (timeval_of_ms timeoutMs) r;
       EvSendTo fd queryBuf (ai_addr addr) s;
       EvRecvFrom fd recvBuf_size stored (Z.of_nat (List.length stored));
       EvClose fd] (Some (skipn 35 stored)).

(** The iterations of a loop over the given candidates, and the payload of
    the iteration that won, if one did. *)
Inductive loop_shape (timeoutMs : Z)
  : list addrinfo -> list iteration -> option (list byte) -> Prop :=
| loop_exhausted : loop_shape timeoutMs [] [] None
| loop_break addr next evs payload :
    attempt_shape addr timeoutMs evs (Some payload) ->
    loop_shape timeoutMs (addr :: next) [(addr, evs)] (Some payload)
| loop_continue addr next evs its r :
    attempt_shape addr timeoutMs evs None ->
    loop_shape timeoutMs next its r ->
    loop_shape timeoutMs (addr :: next) ((addr, evs) :: its) r.

(** The claim that every iteration opens and closes one socket and sends
    once on it, as a predicate on an iteration. *)
Definition one_socket_one_send (it : iteration) : Prop :=
  count is_open it = 1%nat /\ count is_close it = 1%nat /\
  count is_send it = 1%nat /\ (count is_receive it <= 1)%nat.

(** ** Runs of the model *)

Example run_one_reply :
  let r := QueryMotdImpl Scripted "localhost" 19132 5000 [] answering in
  result r = Returns "MCPE;x" /\
  iterations r = [answering_iteration].
Proof. split; reflexivity. Qed.

(** ** Bytes and buffers *)

Lemma payload_of_store (stored rest : list byte) :
  (35 <= List.length stored)%nat ->
  firstn (List.length stored - 35) (skipn 35 (stored ++ rest))
  = skipn 35 stored.
Proof.
  intros Hlen.
  rewrite skipn_app.
  replace (35 - List.length stored)%nat with 0%nat by lia.
  rewrite firstn_app, length_skipn.
  rewrite Nat.sub_diag, firstn_O, app_nil_r.
  apply firstn_all2. rewrite length_skipn. lia.
Qed.

Lemma assign_after_store (stored buf : list byte) :
  (35 < List.length stored)%nat ->
  assign (skipn 35 (store stored buf))
    (Z.to_nat (Z.of_nat (List.length stored)) - 35)
  = string_of_list_byte (skipn 35 stored).
Proof.
  intros Hlen. unfold assign, store.
  rewrite Nat2Z.id, payload_of_store by lia. reflexivity.
Qed.

(** ** One iteration *)

Section Loop.

Context (P : Platform).

Lemma attempt_shape_ok addr timeoutMs recvBuf (w : world P) :
  exists payload,
    attempt_shape addr timeoutMs (snd (attempt P addr timeoutMs recvBuf w))
      payload /\
    snd (fst (fst (attempt P addr timeoutMs recvBuf w)))
    = option_map string_of_list_byte payload.
Proof.
  unfold attempt, bind, socket, setsockopt_rcvtimeo, sendto, recvfrom,
    close_handle, ret.
  destruct (os_socket P (ai_family addr) w) as [w1 fd].
  unfold INVALID_SOCKET_VALUE, SOCKET_ERROR_VALUE.
  destruct (Z.eqb_spec fd (-1)) as [->|Hfd].
  { exists None. cbn. split; [constructor | reflexivity]. }
  destruct (os_setsockopt P fd (timeval_of_ms timeoutMs) w1) as [w2 r].
  destruct (Z.eqb_spec r (-1)) as [->|Hr].
  { exists None. cbn. split; [now constructor | reflexivity]. }
  change (firstn queryBuf_size queryBuf) with queryBuf.
  destruct (os_sendto P fd queryBuf (ai_addr addr) w2) as [w3 s].
  destruct (Z.eqb_spec s (-1)) as [->|Hs].
  { exists None. cbn. split; [now constructor | reflexivity]. }
  destruct (net_recvfrom P fd w3) as [w4 [datagram|]].
  - set (stored := firstn recvBuf_size datagram).
    assert (Hcap : (List.length stored <= recvBuf_size)%nat)
      by (subst stored; rewrite length_firstn; lia).
    clearbody stored.
    destruct (Z.ltb_spec 35 (Z.of_nat (List.length stored))) as [Hlong|Hshort].
    + exists (Some (skipn 35 stored)). cbn. split.
      * constructor; trivial. lia.
      * cbn. f_equal. apply assign_after_store. lia.
    + exists None. cbn. split; [constructor; trivial; lia | reflexivity].
  - exists None. cbn. split; [now constructor | reflexivity].
Qed.

(** ** The loop *)

Lemma probe_loop_shape addrs timeoutMs :
  forall recvBuf (w : world P),
  exists payload,
    loop_shape timeoutMs addrs (snd (probe_loop P addrs timeoutMs recvBuf w))
      payload /\
    fst (fst (probe_loop P addrs timeoutMs recvBuf w))
    = option_map string_of_list_byte payload.
Proof.
  induction addrs as [|addr next IH]; intros recvBuf w.
  - exists None. split; [constructor | reflexivity].
  - cbn [probe_loop].
    destruct (attempt_shape_ok addr timeoutMs recvBuf w) as (p & Hshape & Hres).
    destruct (attempt P addr timeoutMs recvBuf w) as [[[buf' r] w'] evs].
    cbn in Hshape, Hres. subst r.
    destruct p as [payload|]; cbn [option_map].
    + exists (Some payload). split; [now constructor | reflexivity].
    + destruct (IH buf' w') as (q & Hloop & Hq).
      destruct (probe_loop P next timeoutMs buf' w') as [[r' w''] its].
      cbn in Hloop, Hq. exists q. split; [now constructor | exact Hq].
Qed.

(** ** The routine *)

Lemma QueryMotdImpl_unresolved host port timeout recvBuf0 (w : world P) :
  resolution_status P host port w <> 0 ->
  QueryMotdImpl P host port timeout recvBuf0 w
  = mk_run P
      (Throws (MotdException
                 (dns_failed_message P (resolution_status P host port w))))
      (fst (os_getaddrinfo P host (to_string port) w))
      [EvGetAddrInfo host (to_string port) (resolution_status P host port w)]
      [].
Proof.
  unfold resolution_status, QueryMotdImpl, getaddrinfo.
  destruct (os_getaddrinfo P host (to_string port) w) as [w1 [status res]].
  cbn. intros Hst.
  destruct (Z.eqb_spec status 0) as [->|_]; [contradiction | reflexivity].
Qed.

Lemma QueryMotdImpl_resolved host port timeout recvBuf0 (w : world P) :
  resolution_status P host port w = 0 ->
  exists payload,
    loop_shape timeout (candidates P host port w)
      (iterations (QueryMotdImpl P host port timeout recvBuf0 w)) payload /\
    resolution (QueryMotdImpl P host port timeout recvBuf0 w)
    = [EvGetAddrInfo host (to_string port) 0] /\
    result (QueryMotdImpl P host port timeout recvBuf0 w)
    = match payload with
      | Some bytes => Returns (string_of_list_byte bytes)
      | None => Throws (MotdException (all_failed_message host port))
      end.
Proof.
  unfold resolution_status, candidates, QueryMotdImpl, getaddrinfo.
  destruct (os_getaddrinfo P host (to_string port) w) as [w1 [status res]].
  cbn. intros ->. cbn.
  destruct (probe_loop_shape res timeout recvBuf0 w1) as (p & Hloop & Hres).
  destruct (probe_loop P res timeout recvBuf0 w1) as [[r w2] its].
  cbn in Hloop, Hres. subst r. exists p.
  destruct p; cbn; auto.
Qed.

(** Whatever resolution answers, the iterations of a run are those of a
    loop over some of the candidates. *)
Lemma QueryMotdImpl_iterations host port timeout recvBuf0 (w : world P) :
  exists addrs payload,
    loop_shape timeout addrs
      (iterations (QueryMotdImpl P host port timeout recvBuf0 w)) payload /\
    (List.length addrs <= List.length (candidates P host port w))%nat.
Proof.
  destruct (Z.eq_dec (resolution_status P host port w) 0) as [Hst|Hst].
  - destruct (QueryMotdImpl_resolved host port timeout recvBuf0 w Hst)
      as (p & Hloop & _).
    exists (candidates P host port w), p. split; [exact Hloop | lia].
  - rewrite (QueryMotdImpl_unresolved _ _ _ _ _ Hst). cbn.
    exists [], None. split; [constructor | cbn; lia].
Qed.

End Loop.

(** ** Reading the shapes *)

Ltac in_cases H :=
  repeat (destruct H as [H|H]); try discriminate H; try contradiction.

Ltac ltb_false := apply Z.ltb_ge; lia.
Ltac ltb_true := apply Z.ltb_lt; lia.

Lemma eqb_minus_one (z : Z) : z <> -1 -> (z =? -1) = false.
Proof. intros H. now apply Z.eqb_neq. Qed.

Lemma attempt_shape_won addr timeoutMs evs payload :
  attempt_shape addr timeoutMs evs payload ->
  won (addr, evs) = match payload with Some _ => true | None => false end.
Proof.
  destruct 1; unfold won; cbn; rewrite ?orb_false_r; try reflexivity.
  - ltb_false.
  - ltb_true.
Qed.

Lemma attempt_shape_failure addr timeoutMs evs payload :
  attempt_shape addr timeoutMs evs payload ->
  match payload with
  | Some _ => failure_of evs = None
  | None => exists f, failure_of evs = Some f
  end.
Proof.
  destruct 1; cbn; unfold INVALID_SOCKET_VALUE, SOCKET_ERROR_VALUE;
    rewrite ?eqb_minus_one by assumption; cbn; eauto.
  - replace (Z.of_nat (List.length stored) <? 0) with false
      by (symmetry; ltb_false).
    replace (Z.of_nat (List.length stored) <=? 35) with true
      by (symmetry; apply Z.leb_le; lia).
    eauto.
  - replace (Z.of_nat (List.length stored) <? 0) with false
      by (symmetry; ltb_false).
    replace (Z.of_nat (List.length stored) <=? 35) with false
      by (symmetry; apply Z.leb_gt; lia).
    reflexivity.
Qed.

(** What a receive recorded in an iteration says about the iteration. *)
Lemma attempt_shape_receive addr timeoutMs evs payload fd cap stored n :
  attempt_shape addr timeoutMs evs payload ->
  In (EvRecvFrom fd cap stored n) evs ->
  cap = recvBuf_size /\
  (n = -1 \/ n = Z.of_nat (List.length stored)) /\
  (35 < n ->
   payload = Some (skipn 35 stored) /\ n = Z.of_nat (List.length stored)).
Proof.
  destruct 1; intros Hin; in_cases Hin;
    injection Hin as <- <- <- <-; repeat split; auto; intros; lia.
Qed.

(** What a send recorded in an iteration carries. *)
Lemma attempt_shape_send addr timeoutMs evs payload fd bytes dest r :
  attempt_shape addr timeoutMs evs payload ->
  In (EvSendTo fd bytes dest r) evs ->
  bytes = queryBuf /\ dest = ai_addr addr.
Proof.
  destruct 1; intros Hin; in_cases Hin; injection Hin as <- <- <- <-; auto.
Qed.

(** What a configuration of the receive timeout recorded in an iteration
    carries. *)
Lemma attempt_shape_timeout addr timeoutMs evs payload fd tv r :
  attempt_shape addr timeoutMs evs payload ->
  In (EvSetRcvTimeo fd tv r) evs ->
  tv = timeval_of_ms timeoutMs.
Proof.
  destruct 1; intros Hin; in_cases Hin; injection Hin as <- <- <-; auto.
Qed.

Lemma attempt_shape_counts addr timeoutMs evs payload :
  attempt_shape addr timeoutMs evs payload ->
  let it := (addr, evs) in
  count is_socket_call it = 1%nat /\
  (count is_open it <= 1)%nat /\
  count is_close it = count is_open it /\
  (count is_send it <= count is_open it)%nat /\
  (count is_receive it <= count is_send it)%nat /\
  (count is_open it = 1%nat -> count timeout_refused it = 0%nat ->
   count is_send it = 1%nat).
Proof.
  destruct 1; unfold count; cbn;
    unfold INVALID_SOCKET_VALUE, SOCKET_ERROR_VALUE;
    rewrite ?eqb_minus_one by assumption; cbn; repeat split; intros; lia.
Qed.

Lemma loop_shape_each timeoutMs addrs its payload :
  loop_shape timeoutMs addrs its payload ->
  Forall (fun it => exists q, attempt_shape (fst it) timeoutMs (snd it) q) its.
Proof.
  induction 1; repeat constructor; cbn; eauto.
Qed.

Lemma loop_shape_order timeoutMs addrs its payload :
  loop_shape timeoutMs addrs its payload ->
  map fst its = firstn (List.length its) addrs.
Proof.
  induction 1; cbn; [reflexivity | reflexivity | now f_equal].
Qed.

Lemma loop_shape_exhausted timeoutMs addrs its :
  loop_shape timeoutMs addrs its None ->
  map fst its = addrs /\ forallb lost its = true.
Proof.
  remember None as p eqn:Hp. induction 1; try discriminate.
  - split; reflexivity.
  - destruct (IHloop_shape Hp) as [Hmap Hlost]. cbn. split.
    + now f_equal.
    + unfold lost at 1. rewrite (attempt_shape_won _ _ _ _ H). exact Hlost.
Qed.

Lemma loop_shape_winner timeoutMs addrs its payload :
  loop_shape timeoutMs addrs its (Some payload) ->
  exists before winner,
    its = before ++ [winner] /\ forallb lost before = true /\
    won winner = true /\
    attempt_shape (fst winner) timeoutMs (snd winner) (Some payload).
Proof.
  remember (Some payload) as p eqn:Hp. induction 1; try discriminate.
  - injection Hp as ->. exists [], (addr, evs). repeat split; trivial.
    now rewrite (attempt_shape_won _ _ _ _ H).
  - destruct (IHloop_shape Hp) as (before & winner & -> & Hlost & Hwon & Hsh).
    exists ((addr, evs) :: before), winner. repeat split; trivial.
    cbn. unfold lost at 1. now rewrite (attempt_shape_won _ _ _ _ H).
Qed.

Lemma loop_shape_all_failed timeoutMs addrs its payload :
  loop_shape timeoutMs addrs its payload ->
  (forall it, In it its -> failure_of (snd it) <> None) ->
  payload = None.
Proof.
  induction 1; intros Hall; trivial.
  - exfalso. apply (Hall (addr, evs)); [now left|].
    exact (attempt_shape_failure _ _ _ _ H).
  - apply IHloop_shape. intros it Hin. apply Hall. now right.
Qed.

Lemma loop_shape_receive timeoutMs addrs its payload it fd cap stored n :
  loop_shape timeoutMs addrs its payload ->
  In it its -> In (EvRecvFrom fd cap stored n) (snd it) -> 35 < n ->
  payload = Some (skipn 35 stored) /\ n = Z.of_nat (List.length stored).
Proof.
  induction 1; intros Hit Hev Hn.
  - contradiction.
  - destruct Hit as [<-|[]].
    now apply (attempt_shape_receive _ _ _ _ _ _ _ _ H Hev).
  - destruct Hit as [<-|Hit]; [|now apply IHloop_shape].
    destruct (attempt_shape_receive _ _ _ _ _ _ _ _ H Hev) as (_ & _ & Hp).
    destruct (Hp Hn) as [Hp' _]. discriminate.
Qed.

Lemma in_calls_iteration (P : Platform) (r : run P) (e : event) :
  In e (calls r) ->
  In e (resolution r) \/ exists it, In it (iterations r) /\ In e (snd it).
Proof.
  unfold calls. intros Hin. apply in_app_or in Hin as [Hin|Hin]; [now left|].
  right. apply in_concat in Hin as (evs & Hevs & He).
  apply in_map_iff in Hevs as (it & <- & Hit). eauto.
Qed.

Lemma resolution_is_one_call (P : Platform) host port timeout recvBuf0
  (w : world P) :
  resolution (QueryMotdImpl P host port timeout recvBuf0 w)
  = [EvGetAddrInfo host (to_string port) (resolution_status P host port w)].
Proof.
  destruct (Z.eq_dec (resolution_status P host port w) 0) as [Hst|Hst].
  - destruct (QueryMotdImpl_resolved P host port timeout recvBuf0 w Hst)
      as (_ & _ & -> & _). now rewrite Hst.
  - now rewrite (QueryMotdImpl_unresolved P _ _ _ _ _ Hst).
Qed.

(** ** The reply and the probe packet *)

(** C1: whenever a run receives a reply that is longer than 35 bytes, the
    routine returns the bytes of that reply from offset 35 to its end, as a
    string, and their number is recvLen - 35.  The reply is what recvfrom
    stored: at most the 1024 bytes of the receive buffer. *)
Theorem reply_payload_returned (P : Platform) host port timeout recvBuf0
  (w : world P) fd cap stored recvLen :
  In (EvRecvFrom fd cap stored recvLen)
     (calls (QueryMotdImpl P host port timeout recvBuf0 w)) ->
  35 < recvLen ->
  exists text,
    result (QueryMotdImpl P host port timeout recvBuf0 w) = Returns text /\
    list_byte_of_string text = skipn 35 stored /\
    recvLen = Z.of_nat (List.length stored) /\
    Z.of_nat (List.length (list_byte_of_string text)) = recvLen - 35.
Proof.
  intros Hin Hlong.
  apply in_calls_iteration in Hin as [Hin|(it & Hit & Hev)].
  { rewrite resolution_is_one_call in Hin. in_cases Hin. }
  destruct (Z.eq_dec (resolution_status P host port w) 0) as [Hst|Hst].
  2: { rewrite (QueryMotdImpl_unresolved P _ _ _ _ _ Hst) in Hit.
       contradiction. }
  destruct (QueryMotdImpl_resolved P host port timeout recvBuf0 w Hst)
    as (p & Hloop & _ & Hres).
  destruct (loop_shape_receive _ _ _ _ _ _ _ _ _ Hloop Hit Hev Hlong)
    as [-> Hn].
  exists (string_of_list_byte (skipn 35 stored)).
  rewrite list_byte_of_string_of_list_byte, length_skipn.
  repeat split; trivial. lia.
Qed.

(** C2: every datagram a run transmits is the fixed 33-byte sequence, and
    it goes to the address of the candidate of that iteration, whatever
    the host, the port and the timeout are. *)
Theorem probe_packet_is_constant (P : Platform) host port timeout recvBuf0
  (w : world P) it fd payload dest r :
  In it (iterations (QueryMotdImpl P host port timeout recvBuf0 w)) ->
  In (EvSendTo fd payload dest r) (snd it) ->
  payload = [x01; x00; x00; x00; x00; xff; xff; xc1; x1d; x00; xff;
             xff; x00; xfe; xfe; xfe; xfe; xfd; xfd; xfd; xfd; x12;
             x34; x56; x78; x9c; x18; x28; x7f; xe1; x64; x89; x8d] /\
  List.length payload = 33%nat /\
  payload = queryBuf /\
  dest = ai_addr (fst it).
Proof.
  intros Hit Hev.
  destruct (QueryMotdImpl_iterations P host port timeout recvBuf0 w)
    as (addrs & p & Hloop & _).
  pose proof (loop_shape_each _ _ _ _ Hloop) as Heach.
  rewrite Forall_forall in Heach.
  destruct (Heach it Hit) as (q & Hshape).
  destruct (attempt_shape_send _ _ _ _ _ _ _ _ Hshape Hev) as [-> ->].
  repeat split.
Qed.

(** C3, as the code has it: the eight bytes of the probe packet at
    offsets 1 to 8 are 00 00 00 00 FF FF C1 1D; the first four of them are
    zero, and the 16-byte magic follows at offset 9. *)
Theorem probe_packet_timestamp_field :
  firstn 8 (skipn 1 queryBuf) = [x00; x00; x00; x00; xff; xff; xc1; x1d] /\
  firstn 4 (skipn 1 queryBuf) = repeat x00 4 /\
  firstn 16 (skipn 9 queryBuf)
  = [x00; xff; xff; x00; xfe; xfe; xfe; xfe;
     xfd; xfd; xfd; xfd; x12; x34; x56; x78] /\
  List.length queryBuf = queryBuf_size.
Proof. repeat split. Qed.

(** C3 as stated fails: the bytes at offsets 1 to 8 are not all zero (the
    byte at offset 5 is FF). *)
Lemma probe_packet_timestamp_not_zero :
  firstn 8 (skipn 1 queryBuf) <> repeat x00 8 /\ nth 5 queryBuf x00 = xff.
Proof. split; [discriminate | reflexivity]. Qed.

(** ** Errors *)

Lemma MotdException_inj a b : MotdException a = MotdException b -> a = b.
Proof. now intros [=]. Qed.

Lemma messages_differ (P : Platform) status host port :
  dns_failed_message P status <> all_failed_message host port.
Proof. unfold dns_failed_message, all_failed_message. cbn. discriminate. Qed.

(** C4: after a successful resolution the only error that leaves the
    routine is the one of exhaustion; every iteration that did not win
    failed in one of the five ways (no socket, timeout refused, send
    failed, receive failed or timed out, reply of 35 bytes or fewer), and
    when every iteration failed, every candidate was tried, in order, and
    the call throws the exhaustion error, whose message names the host and
    the port. *)
Theorem candidate_failures_stay_in_loop (P : Platform) host port timeout
  recvBuf0 (w : world P) :
  resolution_status P host port w = 0 ->
  (forall e,
     result (QueryMotdImpl P host port timeout recvBuf0 w) = Throws e ->
     e = MotdException (all_failed_message host port)) /\
  (forall it,
     In it (iterations (QueryMotdImpl P host port timeout recvBuf0 w)) ->
     won it = false -> exists f, failure_of (snd it) = Some f) /\
  ((forall it,
      In it (iterations (QueryMotdImpl P host port timeout recvBuf0 w)) ->
      failure_of (snd it) <> None) ->
   map fst (iterations (QueryMotdImpl P host port timeout recvBuf0 w))
   = candidates P host port w /\
   result (QueryMotdImpl P host port timeout recvBuf0 w)
   = Throws (MotdException
       ("All connection attempts failed for " ++ host ++ ":"
        ++ to_string port)%string)).
Proof.
  intros Hst.
  destruct (QueryMotdImpl_resolved P host port timeout recvBuf0 w Hst)
    as (p & Hloop & _ & Hres).
  split; [|split].
  - intros e He. rewrite Hres in He. destruct p; [discriminate|].
    now injection He as <-.
  - intros it Hit Hwon.
    pose proof (loop_shape_each _ _ _ _ Hloop) as Heach.
    rewrite Forall_forall in Heach. destruct (Heach it Hit) as (q & Hshape).
    pose proof (attempt_shape_won _ _ _ _ Hshape) as Hw.
    pose proof (attempt_shape_failure _ _ _ _ Hshape) as Hf.
    destruct it as [addr evs]. cbn in *. rewrite Hwon in Hw.
    destruct q; [discriminate | exact Hf].
  - intros Hall.
    pose proof (loop_shape_all_failed _ _ _ _ Hloop Hall) as ->.
    split; [|exact Hres].
    now destruct (loop_shape_exhausted _ _ _ Hloop).
Qed.

(** C5: when resolution fails, the call throws the resolution error at
    once: the only call made is getaddrinfo, no iteration of the loop runs
    (so no socket is created and nothing is sent), and the message is never
    that of the exhaustion error. *)
Theorem resolution_failure_is_immediate (P : Platform) host port timeout
  recvBuf0 (w : world P) :
  resolution_status P host port w <> 0 ->
  result (QueryMotdImpl P host port timeout recvBuf0 w)
  = Throws (MotdException
      ("DNS resolution failed: "
       ++ gai_strerror P (resolution_status P host port w))%string) /\
  calls (QueryMotdImpl P host port timeout recvBuf0 w)
  = [EvGetAddrInfo host (to_string port) (resolution_status P host port w)] /\
  iterations (QueryMotdImpl P host port timeout recvBuf0 w) = [] /\
  (forall e host' port',
     result (QueryMotdImpl P host port timeout recvBuf0 w) = Throws e ->
     e <> MotdException (all_failed_message host' port')).
Proof.
  intros Hst. rewrite (QueryMotdImpl_unresolved P _ _ _ _ _ Hst).
  repeat split.
  intros e host' port' He. cbn [result] in He. apply eq_sym in He.
  intros Heq. rewrite Heq in He. clear Heq.
  assert (Hinj : forall x y : exn, Throws (A:=string) x = Throws y -> x = y)
    by now intros x y [=].
  apply Hinj, MotdException_inj in He.
  exact (messages_differ P _ _ _ (eq_sym He)).
Qed.

(** ** The order of the attempts *)

(** C6: after a successful resolution, the iterations of a run are for the
    candidates in resolution order, one iteration per candidate and no
    candidate twice; when the call returns, the last iteration is the first
    one that received a reply longer than 35 bytes, the text returned comes
    from that reply, and no later candidate is tried; when the call throws,
    every candidate was tried once and none received such a reply. *)
Theorem first_long_reply_wins (P : Platform) host port timeout recvBuf0
  (w : world P) :
  resolution_status P host port w = 0 ->
  map fst (iterations (QueryMotdImpl P host port timeout recvBuf0 w))
  = firstn
      (List.length (iterations (QueryMotdImpl P host port timeout recvBuf0 w)))
      (candidates P host port w) /\
  match result (QueryMotdImpl P host port timeout recvBuf0 w) with
  | Returns text =>
      exists before winner fd stored,
        iterations (QueryMotdImpl P host port timeout recvBuf0 w)
        = before ++ [winner] /\
        forallb lost before = true /\ won winner = true /\
        In (EvRecvFrom fd recvBuf_size stored (Z.of_nat (List.length stored)))
           (snd winner) /\
        (35 < List.length stored)%nat /\
        text = string_of_list_byte (skipn 35 stored)
  | Throws _ =>
      map fst (iterations (QueryMotdImpl P host port timeout recvBuf0 w))
      = candidates P host port w /\
      forallb lost (iterations (QueryMotdImpl P host port timeout recvBuf0 w))
      = true
  end.
Proof.
  intros Hst.
  destruct (QueryMotdImpl_resolved P host port timeout recvBuf0 w Hst)
    as (p & Hloop & _ & Hres).
  split; [exact (loop_shape_order _ _ _ _ Hloop)|].
  rewrite Hres. destruct p as [payload|].
  - destruct (loop_shape_winner _ _ _ _ Hloop)
      as (before & winner & Hits & Hlost & Hwon & Hshape).
    inversion Hshape; subst.
    exists before, winner, fd, stored. rewrite <- H. cbn.
    repeat split; auto; lia.
  - exact (loop_shape_exhausted _ _ _ Hloop).
Qed.

(** ** The receive timeout *)

Lemma to_long_small (z : Z) : int64_range z -> to_long z = z.
Proof.
  unfold to_long, int64_range. intros Hz.
  rewrite Z.mod_small by lia. lia.
Qed.

Lemma quot_rem_1000 (t : Z) :
  t = 1000 * Z.quot t 1000 + Z.rem t 1000 /\
  Z.abs (Z.rem t 1000) < 1000 /\
  Z.abs (Z.quot t 1000) <= Z.abs t.
Proof.
  pose proof (Z.quot_rem' t 1000) as Hqr.
  pose proof (Z.rem_bound_abs t 1000 ltac:(lia)) as Hr.
  repeat split; lia.
Qed.

(** C8: for a timeout of t milliseconds (a 64-bit count), the seconds of
    the timeval are t / 1000 and the microseconds (t % 1000) * 1000, so
    seconds * 1000 + microseconds / 1000 is t again; for t >= 0 the two
    parts are the floor quotient and (t mod 1000) * 1000 with the
    microseconds below one million; and every configuration of the receive
    timeout in a run carries this timeval. *)
Theorem timeout_conversion_exact (P : Platform) host port timeout recvBuf0
  (w : world P) :
  int64_range timeout ->
  tv_sec (timeval_of_ms timeout) = Z.quot timeout 1000 /\
  tv_usec (timeval_of_ms timeout) = Z.rem timeout 1000 * 1000 /\
  tv_sec (timeval_of_ms timeout) * 1000
  + Z.quot (tv_usec (timeval_of_ms timeout)) 1000 = timeout /\
  (0 <= timeout ->
   tv_sec (timeval_of_ms timeout) = timeout / 1000 /\
   tv_usec (timeval_of_ms timeout) = (timeout mod 1000) * 1000 /\
   0 <= tv_usec (timeval_of_ms timeout) < 1000000) /\
  (forall it fd tv r,
     In it (iterations (QueryMotdImpl P host port timeout recvBuf0 w)) ->
     In (EvSetRcvTimeo fd tv r) (snd it) ->
     tv = timeval_of_ms timeout).
Proof.
  intros Hrange.
  destruct (quot_rem_1000 timeout) as (Hqr & Hr & Hq).
  assert (Hsec : tv_sec (timeval_of_ms timeout) = Z.quot timeout 1000).
  { cbn. apply to_long_small. unfold int64_range in *. lia. }
  assert (Husec : tv_usec (timeval_of_ms timeout) = Z.rem timeout 1000 * 1000).
  { cbn. apply to_long_small. unfold int64_range. lia. }
  rewrite Hsec, Husec.
  split; [reflexivity|]. split; [reflexivity|]. split; [|split].
  - rewrite Z.quot_mul by lia. lia.
  - intros Hpos.
    rewrite <- (Z.quot_div_nonneg timeout 1000) by lia.
    rewrite <- (Z.rem_mod_nonneg timeout 1000) by lia.
    pose proof (Z.rem_nonneg timeout 1000 ltac:(lia) Hpos).
    repeat split; lia.
  - intros it fd tv r Hit Hev.
    destruct (QueryMotdImpl_iterations P host port timeout recvBuf0 w)
      as (addrs & p & Hloop & _).
    pose proof (loop_shape_each _ _ _ _ Hloop) as Heach.
    rewrite Forall_forall in Heach. destruct (Heach it Hit) as (q & Hshape).
    exact (attempt_shape_timeout _ _ _ _ _ _ _ Hshape Hev).
Qed.

(** ** Sockets *)

(** C9, as the code does it: a run has no more iterations than resolved
    candidates, and they are for the candidates in resolution order, one
    each, so no address is tried again.  Each iteration calls socket
    once, as its first call.  When that call fails the iteration makes no
    other call.  When it returns a descriptor, every other call of the
    iteration is made on that descriptor and the last of them is the one
    close of it; between the two there is the configuration of the
    receive timeout, then, only if that was accepted, exactly one send of
    the probe packet to the candidate, then, only if the send succeeded and
    so after it, exactly one receive.  In numbers: one socket call, at
    most one socket opened, as many closes as opened sockets, at most one
    send and only on an opened socket, at most one receive and only after
    a send, and exactly one send when the socket was opened and the
    receive timeout was accepted. *)
Theorem socket_usage_per_candidate (P : Platform) host port timeout recvBuf0
  (w : world P) :
  (List.length (iterations (QueryMotdImpl P host port timeout recvBuf0 w))
   <= List.length (candidates P host port w))%nat /\
  map fst (iterations (QueryMotdImpl P host port timeout recvBuf0 w))
  = firstn
      (List.length (iterations (QueryMotdImpl P host port timeout recvBuf0 w)))
      (candidates P host port w) /\
  Forall
    (fun it =>
       count is_socket_call it = 1%nat /\
       (count is_open it <= 1)%nat /\
       count is_close it = count is_open it /\
       (count is_send it <= count is_open it)%nat /\
       (count is_receive it <= count is_send it)%nat /\
       (count is_open it = 1%nat -> count timeout_refused it = 0%nat ->
        count is_send it = 1%nat))
    (iterations (QueryMotdImpl P host port timeout recvBuf0 w)) /\
  Forall
    (fun it =>
       exists fd,
         (fd = INVALID_SOCKET_VALUE /\
          snd it = [EvSocket (ai_family (fst it)) fd]) \/
         (fd <> INVALID_SOCKET_VALUE /\
          exists between,
            snd it
            = EvSocket (ai_family (fst it)) fd :: between ++ [EvClose fd] /\
            (between
             = [EvSetRcvTimeo fd (timeval_of_ms timeout) SOCKET_ERROR_VALUE]
             \/
             (exists r,
                r <> SOCKET_ERROR_VALUE /\
                between
                = [EvSetRcvTimeo fd (timeval_of_ms timeout) r;
                   EvSendTo fd queryBuf (ai_addr (fst it))
                     SOCKET_ERROR_VALUE])
             \/
             (exists r s stored recvLen,
                r <> SOCKET_ERROR_VALUE /\ s <> SOCKET_ERROR_VALUE /\
                between
                = [EvSetRcvTimeo fd (timeval_of_ms timeout) r;
                   EvSendTo fd queryBuf (ai_addr (fst it)) s;
                   EvRecvFrom fd recvBuf_size stored recvLen]))))
    (iterations (QueryMotdImpl P host port timeout recvBuf0 w)).
Proof.
  destruct (QueryMotdImpl_iterations P host port timeout recvBuf0 w)
    as (addrs & p & Hloop & Hlen).
  split; [|split; [|split]].
  - pose proof (f_equal (@List.length _) (loop_shape_order _ _ _ _ Hloop))
      as Hl.
    rewrite length_map, length_firstn in Hl.
    symmetry in Hl. apply Nat.min_l_iff in Hl.
    exact (Nat.le_trans _ _ _ Hl Hlen).
  - destruct (Z.eq_dec (resolution_status P host port w) 0) as [Hst|Hst].
    + destruct (QueryMotdImpl_resolved P host port timeout recvBuf0 w Hst)
        as (q & Hq & _).
      exact (loop_shape_order _ _ _ _ Hq).
    + now rewrite (QueryMotdImpl_unresolved P _ _ _ _ _ Hst).
  - eapply Forall_impl; [|exact (loop_shape_each _ _ _ _ Hloop)].
    intros [addr evs] (q & Hshape).
    exact (attempt_shape_counts _ _ _ _ Hshape).
  - eapply Forall_impl; [|exact (loop_shape_each _ _ _ _ Hloop)].
    intros [addr evs] (q & Hshape). cbn [fst snd] in *.
    unfold INVALID_SOCKET_VALUE, SOCKET_ERROR_VALUE.
    destruct Hshape.
    + exists (-1). left. split; reflexivity.
    + exists fd. right. split; [assumption|].
      exists [EvSetRcvTimeo fd (timeval_of_ms timeout) (-1)].
      split; [reflexivity|]. left. reflexivity.
    + exists fd. right. split; [assumption|].
      exists [EvSetRcvTimeo fd (timeval_of_ms timeout) r;
              EvSendTo fd queryBuf (ai_addr addr) (-1)].
      split; [reflexivity|]. right. left.
      exists r. split; [assumption | reflexivity].
    + exists fd. right. split; [assumption|].
      exists [EvSetRcvTimeo fd (timeval_of_ms timeout) r;
              EvSendTo fd queryBuf (ai_addr addr) s;
              EvRecvFrom fd recvBuf_size [] (-1)].
      split; [reflexivity|]. right. right.
      exists r, s, [], (-1). repeat split; assumption.
    + exists fd. right. split; [assumption|].
      exists [EvSetRcvTimeo fd (timeval_of_ms timeout) r;
              EvSendTo fd queryBuf (ai_addr addr) s;
              EvRecvFrom fd recvBuf_size stored
                (Z.of_nat (List.length stored))].
      split; [reflexivity|]. right. right.
      exists r, s, stored, (Z.of_nat (List.length stored)).
      repeat split; assumption.
    + exists fd. right. split; [assumption|].
      exists [EvSetRcvTimeo fd (timeval_of_ms timeout) r;
              EvSendTo fd queryBuf (ai_addr addr) s;
              EvRecvFrom fd recvBuf_size stored
                (Z.of_nat (List.length stored))].
      split; [reflexivity|]. right. right.
      exists r, s, stored, (Z.of_nat (List.length stored)).
      repeat split; assumption.
Qed.

(** C9 as stated fails: an iteration whose socket call fails opens no
    socket, and one whose setsockopt refuses the receive timeout has opened
    a socket and closes it without sending. *)
Lemma refused_timeout_sends_nothing :
  iterations (QueryMotdImpl Scripted "localhost" 19132 5000 [] refusing)
  = [(addr6, [EvSocket 10 (-1)]);
     (addr4, [EvSocket 2 3; EvSetRcvTimeo 3 (mk_timeval 5 0) (-1);
              EvClose 3])] /\
  map (count is_open)
    (iterations (QueryMotdImpl Scripted "localhost" 19132 5000 [] refusing))
  = [0%nat; 1%nat] /\
  map (count is_send)
    (iterations (QueryMotdImpl Scripted "localhost" 19132 5000 [] refusing))
  = [0%nat; 0%nat] /\
  ~ Forall one_socket_one_send
      (iterations (QueryMotdImpl Scripted "localhost" 19132 5000 [] refusing)).
Proof.
  repeat split.
  intros Hall. inversion Hall as [|it its (Hopen & _) _].
  discriminate Hopen.
Qed.

(** ** Continuations *)

(** The routine throws nothing but [MotdException]. *)
Lemma QueryMotdImpl_throws (P : Platform) host port timeout recvBuf0
  (w : world P) e :
  result (QueryMotdImpl P host port timeout recvBuf0 w) = Throws e ->
  exists message, e = MotdException message.
Proof.
  destruct (Z.eq_dec (resolution_status P host port w) 0) as [Hst|Hst].
  - destruct (QueryMotdImpl_resolved P host port timeout recvBuf0 w Hst)
      as (p & _ & _ & ->).
    destruct p; [discriminate|]. intros [= <-]. eauto.
  - rewrite (QueryMotdImpl_unresolved P _ _ _ _ _ Hst). cbn [result].
    intros [= <-]. eauto.
Qed.

(** C7: with a non-empty error continuation, a failure of the probe is
    caught and handed to that continuation, once and as the only call, and
    nothing escapes the thread but what the continuation itself throws; a
    thrown value that is not a [std::exception] reaches it as
    "Unknown exception"; on success a non-empty success continuation is
    called with the text, and called alone when it returns normally. *)
Theorem failures_reach_onError (P : Platform) (U : Type) host port timeout
  recvBuf0 (w : world P) (u : U) onSuccess onError f g :
  (forall e,
     result (QueryMotdImpl P host port timeout recvBuf0 w) = Throws e ->
     let t := snd (queryMotdAsync P U host port onSuccess (Some g) timeout
                     recvBuf0 w u) in
     invoked t = [OnError e] /\ (caller t, escaped t) = g e u) /\
  (forall text,
     result (QueryMotdImpl P host port timeout recvBuf0 w) = Returns text ->
     let t := snd (queryMotdAsync P U host port (Some f) onError timeout
                     recvBuf0 w u) in
     exists rest,
       invoked t = OnSuccess text :: rest /\
       (snd (f text u) = None ->
        rest = [] /\ caller t = fst (f text u) /\ escaped t = None)) /\
  (forall e,
     let t := thread_body U (Throws e) onSuccess (Some g) u in
     invoked t = [OnError (caught e)] /\
     (caller t, escaped t) = g (caught e) u) /\
  caught ForeignException = StdException "Unknown exception".
Proof.
  assert (Hthrown : forall e,
            let t := thread_body U (Throws e) onSuccess (Some g) u in
            invoked t = [OnError (caught e)] /\
            (caller t, escaped t) = g (caught e) u).
  { intros e. unfold thread_body, call_onError. cbn.
    destruct (g (caught e) u) as [u' thrown]. cbn. split; reflexivity. }
  split; [|split; [|split]]; [| |exact Hthrown|reflexivity].
  - intros e He. unfold queryMotdAsync. cbn [snd]. rewrite He.
    destruct (QueryMotdImpl_throws P _ _ _ _ _ _ He) as (message & ->).
    exact (Hthrown (MotdException message)).
  - intros text Htext. unfold queryMotdAsync. cbn [snd]. rewrite Htext.
    unfold thread_body, call_onSuccess.
    destruct (f text u) as [u' [e'|]]; cbn.
    + eexists. split; [reflexivity | discriminate].
    + exists []. repeat split.
Qed.

(** C10: with an empty error continuation a failing probe calls nothing,
    leaves the caller's state as it was and lets nothing escape the thread,
    whatever was thrown; with an empty success continuation a successful
    probe does the same with its result. *)
Theorem empty_continuations_discard (P : Platform) (U : Type) host port
  timeout recvBuf0 (w : world P) (u : U) :
  (forall e onSuccess,
     result (QueryMotdImpl P host port timeout recvBuf0 w) = Throws e ->
     snd (queryMotdAsync P U host port onSuccess None timeout recvBuf0 w u)
     = mk_thread_end U u [] None) /\
  (forall text onError,
     result (QueryMotdImpl P host port timeout recvBuf0 w) = Returns text ->
     snd (queryMotdAsync P U host port None onError timeout recvBuf0 w u)
     = mk_thread_end U u [] None) /\
  (forall e onSuccess,
     thread_body U (Throws e) onSuccess None u = mk_thread_end U u [] None).
Proof.
  repeat split.
  - intros e onSuccess He. unfold queryMotdAsync. cbn [snd]. now rewrite He.
  - intros text onError Htext. unfold queryMotdAsync. cbn [snd].
    now rewrite Htext.
Qed.

(** ** Runs of the model, continued *)

Example run_second_answers :
  let r := QueryMotdImpl Scripted "localhost" 19132 250 [] second_answers in
  result r = Returns "MCPE;y" /\
  map fst (iterations r) = [addr6; addr4] /\
  map (fun it => failure_of (snd it)) (iterations r)
  = [Some ReplyTooShort; None].
Proof. repeat split. Qed.

Example run_silent :
  let r := QueryMotdImpl Scripted "localhost" 19132 250 [] silent in
  result r
  = Throws (MotdException "All connection attempts failed for localhost:19132")
  /\ map (fun it => failure_of (snd it)) (iterations r)
     = [Some SocketFailed; Some ReplyTooShort].
Proof. repeat split. Qed.

Example run_unresolved :
  let r := QueryMotdImpl Scripted "nowhere" 19132 250 [] unresolved in
  result r
  = Throws (MotdException "DNS resolution failed: Name or service not known")
  /\ calls r = [EvGetAddrInfo "nowhere" "19132" (-2)].
Proof. repeat split. Qed.

(** A datagram longer than the receive buffer: only its first 1024 bytes
    are stored, and the text is what follows their first 35. *)
Example run_oversized_reply :
  let datagram := pong_header ++ repeat x41 2000 in
  let r := QueryMotdImpl Scripted "localhost" 19132 250 []
             (mk_script (0, [addr4]) [3] [0] [33] [Some datagram]) in
  result r = Returns (string_of_list_byte (repeat x41 989)).
Proof. vm_compute. reflexivity. Qed.

(** What the uninitialised receive buffer holds on entry does not leak
    into the text. *)
Example run_dirty_buffer :
  result (QueryMotdImpl Scripted "localhost" 19132 250 (repeat x2a 1024)
            answering)
  = Returns "MCPE;x".
Proof. reflexivity. Qed.

Example run_async_success :
  snd (queryMotdAsync Scripted (list string) "localhost" 19132
         note_text note_error 5000 [] answering [])
  = mk_thread_end _ ["MCPE;x"] [OnSuccess "MCPE;x"] None.
Proof. reflexivity. Qed.

Example run_async_failure :
  snd (queryMotdAsync Scripted (list string) "localhost" 19132
         note_text note_error 5000 [] silent [])
  = mk_thread_end _ ["All connection attempts failed for localhost:19132"]
      [OnError
         (MotdException "All connection attempts failed for localhost:19132")]
      None.
Proof. reflexivity. Qed.

(** ** The theorems at concrete runs *)

Lemma reply_payload_returned_witness :
  In (EvRecvFrom 3 1024 (pong "MCPE;x") 41)
     (calls (QueryMotdImpl Scripted "localhost" 19132 5000 [] answering)) /\
  35 < 41 /\
  exists text,
    result (QueryMotdImpl Scripted "localhost" 19132 5000 [] answering)
    = Returns text /\
    list_byte_of_string text = skipn 35 (pong "MCPE;x") /\
    41 = Z.of_nat (List.length (pong "MCPE;x")) /\
    Z.of_nat (List.length (list_byte_of_string text)) = 41 - 35.
Proof.
  assert (Hin : In (EvRecvFrom 3 1024 (pong "MCPE;x") 41)
                  (calls (QueryMotdImpl Scripted "localhost" 19132 5000 []
                            answering)))
    by (do 4 right; left; reflexivity).
  assert (Hlong : 35 < 41) by reflexivity.
  split; [exact Hin | split; [exact Hlong|]].
  exact (reply_payload_returned Scripted "localhost" 19132 5000 [] answering
           3 1024%nat (pong "MCPE;x") 41 Hin Hlong).
Defined.

Lemma probe_packet_is_constant_witness :
  In answering_iteration
     (iterations (QueryMotdImpl Scripted "localhost" 19132 5000 []
                    answering)) /\
  In (EvSendTo 3 queryBuf [x7f; x00; x00; x01] 33)
     (snd answering_iteration) /\
  queryBuf = [x01; x00; x00; x00; x00; xff; xff; xc1; x1d; x00; xff;
              xff; x00; xfe; xfe; xfe; xfe; xfd; xfd; xfd; xfd; x12;
              x34; x56; x78; x9c; x18; x28; x7f; xe1; x64; x89; x8d] /\
  List.length queryBuf = 33%nat /\
  queryBuf = queryBuf /\
  [x7f; x00; x00; x01] = ai_addr (fst answering_iteration).
Proof.
  assert (Hit : In answering_iteration
                  (iterations (QueryMotdImpl Scripted "localhost" 19132
                                 5000 [] answering)))
    by (left; reflexivity).
  assert (Hev : In (EvSendTo 3 queryBuf [x7f; x00; x00; x01] 33)
                  (snd answering_iteration))
    by (do 2 right; left; reflexivity).
  split; [exact Hit | split; [exact Hev|]].
  exact (probe_packet_is_constant Scripted "localhost" 19132 5000 []
           answering answering_iteration 3 queryBuf [x7f; x00; x00; x01] 33
           Hit Hev).
Defined.

Lemma candidate_failures_stay_in_loop_witness :
  resolution_status Scripted "localhost" 19132 silent = 0 /\
  (forall it,
     In it (iterations (QueryMotdImpl Scripted "localhost" 19132 250 []
                          silent)) ->
     failure_of (snd it) <> None) /\
  map fst (iterations (QueryMotdImpl Scripted "localhost" 19132 250 [] silent))
  = [addr6; addr4] /\
  result (QueryMotdImpl Scripted "localhost" 19132 250 [] silent)
  = Throws (MotdException "All connection attempts failed for localhost:19132").
Proof.
  assert (Hst : resolution_status Scripted "localhost" 19132 silent = 0)
    by reflexivity.
  assert (Hall : forall it,
            In it (iterations (QueryMotdImpl Scripted "localhost" 19132 250 []
                                 silent)) ->
            failure_of (snd it) <> None).
  { intros it [<-|[<-|[]]]; discriminate. }
  split; [exact Hst | split; [exact Hall|]].
  exact (proj2 (proj2 (candidate_failures_stay_in_loop Scripted "localhost"
                         19132 250 [] silent Hst)) Hall).
Defined.

Lemma resolution_failure_is_immediate_witness :
  resolution_status Scripted "nowhere" 19132 unresolved <> 0 /\
  result (QueryMotdImpl Scripted "nowhere" 19132 250 [] unresolved)
  = Throws (MotdException "DNS resolution failed: Name or service not known")
  /\
  calls (QueryMotdImpl Scripted "nowhere" 19132 250 [] unresolved)
  = [EvGetAddrInfo "nowhere" "19132" (-2)] /\
  iterations (QueryMotdImpl Scripted "nowhere" 19132 250 [] unresolved) = [] /\
  (forall e host' port',
     result (QueryMotdImpl Scripted "nowhere" 19132 250 [] unresolved)
     = Throws e ->
     e <> MotdException (all_failed_message host' port')).
Proof.
  assert (Hst : resolution_status Scripted "nowhere" 19132 unresolved <> 0)
    by discriminate.
  split; [exact Hst|].
  exact (resolution_failure_is_immediate Scripted "nowhere" 19132 250 []
           unresolved Hst).
Defined.

Lemma first_long_reply_wins_witness :
  resolution_status Scripted "localhost" 19132 second_answers = 0 /\
  map fst (iterations (QueryMotdImpl Scripted "localhost" 19132 250 []
                         second_answers))
  = firstn 2 [addr6; addr4] /\
  exists before winner fd stored,
    iterations (QueryMotdImpl Scripted "localhost" 19132 250 [] second_answers)
    = before ++ [winner] /\
    forallb lost before = true /\ won winner = true /\
    In (EvRecvFrom fd recvBuf_size stored (Z.of_nat (List.length stored)))
       (snd winner) /\
    (35 < List.length stored)%nat /\
    "MCPE;y" = string_of_list_byte (skipn 35 stored).
Proof.
  assert (Hst : resolution_status Scripted "localhost" 19132 second_answers = 0)
    by reflexivity.
  split; [exact Hst|].
  exact (first_long_reply_wins Scripted "localhost" 19132 250 []
           second_answers Hst).
Defined.

Lemma timeout_conversion_exact_witness :
  int64_range 250 /\
  tv_sec (timeval_of_ms 250) = 0 /\
  tv_usec (timeval_of_ms 250) = 250000 /\
  tv_sec (timeval_of_ms 250) * 1000 + Z.quot (tv_usec (timeval_of_ms 250)) 1000
  = 250.
Proof.
  assert (Hrange : int64_range 250) by (split; [discriminate | reflexivity]).
  split; [exact Hrange|].
  destruct (timeout_conversion_exact Scripted "localhost" 19132 250 []
              answering Hrange) as (Hsec & Husec & Hback & _).
  exact (conj Hsec (conj Husec Hback)).
Defined.

Lemma socket_usage_per_candidate_witness :
  (List.length (iterations (QueryMotdImpl Scripted "localhost" 19132 250 []
                              silent))
   <= 2)%nat /\
  map fst (iterations (QueryMotdImpl Scripted "localhost" 19132 250 [] silent))
  = [addr6; addr4].
Proof.
  exact (conj
           (proj1 (socket_usage_per_candidate Scripted "localhost" 19132 250
                     [] silent))
           (proj1 (proj2 (socket_usage_per_candidate Scripted "localhost"
                            19132 250 [] silent)))).
Defined.

Lemma failures_reach_onError_witness :
  result (QueryMotdImpl Scripted "localhost" 19132 250 [] silent)
  = Throws (MotdException "All connection attempts failed for localhost:19132")
  /\
  invoked (snd (queryMotdAsync Scripted (list string) "localhost" 19132
                  note_text note_error 250 [] silent []))
  = [OnError
       (MotdException "All connection attempts failed for localhost:19132")]
  /\
  caller (snd (queryMotdAsync Scripted (list string) "localhost" 19132
                 note_text note_error 250 [] silent []))
  = ["All connection attempts failed for localhost:19132"].
Proof.
  assert (He : result (QueryMotdImpl Scripted "localhost" 19132 250 [] silent)
               = Throws (MotdException
                   "All connection attempts failed for localhost:19132"))
    by reflexivity.
  split; [exact He|].
  destruct (proj1 (failures_reach_onError Scripted (list string) "localhost"
                     19132 250 [] silent [] note_text note_error
                     (fun text u => (text :: u, None))
                     (fun e u => (what e :: u, None))) _ He)
    as [Hinvoked Hcaller].
  split; [exact Hinvoked | exact (f_equal fst Hcaller)].
Defined.

Lemma empty_continuations_discard_witness :
  result (QueryMotdImpl Scripted "localhost" 19132 250 [] silent)
  = Throws (MotdException "All connection attempts failed for localhost:19132")
  /\
  snd (queryMotdAsync Scripted (list string) "localhost" 19132
         note_text None 250 [] silent ["untouched"])
  = mk_thread_end (list string) ["untouched"] [] None.
Proof.
  assert (He : result (QueryMotdImpl Scripted "localhost" 19132 250 [] silent)
               = Throws (MotdException
                   "All connection attempts failed for localhost:19132"))
    by reflexivity.
  split; [exact He|].
  exact (proj1 (empty_continuations_discard Scripted (list string) "localhost"
                  19132 250 [] silent ["untouched"]) _ note_text He).
Defined.

(** ** The receive buffer, the text and the descriptors *)

Section Routine.

Context (P : Platform).

Lemma attempt_buffer_irrelevant addr timeoutMs recvBuf recvBuf' (w : world P) :
  snd (fst (fst (attempt P addr timeoutMs recvBuf w)))
  = snd (fst (fst (attempt P addr timeoutMs recvBuf' w))) /\
  snd (fst (attempt P addr timeoutMs recvBuf w))
  = snd (fst (attempt P addr timeoutMs recvBuf' w)) /\
  snd (attempt P addr timeoutMs recvBuf w)
  = snd (attempt P addr timeoutMs recvBuf' w).
Proof.
  unfold attempt, bind, socket, setsockopt_rcvtimeo, sendto, recvfrom,
    close_handle, ret.
  destruct (os_socket P (ai_family addr) w) as [w1 fd].
  unfold INVALID_SOCKET_VALUE, SOCKET_ERROR_VALUE.
  destruct (Z.eqb_spec fd (-1)) as [->|Hfd]; [cbn; auto|].
  destruct (os_setsockopt P fd (timeval_of_ms timeoutMs) w1) as [w2 r].
  destruct (Z.eqb_spec r (-1)) as [->|Hr]; [cbn; auto|].
  destruct (os_sendto P fd (firstn queryBuf_size queryBuf) (ai_addr addr) w2)
    as [w3 s].
  destruct (Z.eqb_spec s (-1)) as [->|Hs]; [cbn; auto|].
  destruct (net_recvfrom P fd w3) as [w4 [datagram|]]; [|cbn; auto].
  set (stored := firstn recvBuf_size datagram). clearbody stored.
  destruct (Z.ltb_spec 35 (Z.of_nat (List.length stored))) as [Hlong|Hshort];
    cbn [fst snd]; repeat split.
  rewrite !assign_after_store by lia. reflexivity.
Qed.

Lemma probe_loop_buffer_irrelevant addrs timeoutMs :
  forall recvBuf recvBuf' (w : world P),
    probe_loop P addrs timeoutMs recvBuf w
    = probe_loop P addrs timeoutMs recvBuf' w.
Proof.
  induction addrs as [|addr next IH]; intros recvBuf recvBuf' w;
    [reflexivity|].
  cbn [probe_loop].
  destruct (attempt_buffer_irrelevant addr timeoutMs recvBuf recvBuf' w)
    as (Hr & Hw & Hevs).
  destruct (attempt P addr timeoutMs recvBuf w) as [[[b1 r1] w1] e1].
  destruct (attempt P addr timeoutMs recvBuf' w) as [[[b2 r2] w2] e2].
  cbn in Hr, Hw, Hevs. subst r2 w2 e2.
  destruct r1; [reflexivity|]. now rewrite (IH b1 b2 w1).
Qed.

(** X1: what the uninitialised receive buffer holds on entry has no
    influence on a run: the outcome, the calls made and the state the
    socket layer is left in are the same for any two initial contents. *)
Theorem run_ignores_uninitialised_buffer host port timeout recvBuf0 recvBuf0'
  (w : world P) :
  QueryMotdImpl P host port timeout recvBuf0 w
  = QueryMotdImpl P host port timeout recvBuf0' w.
Proof.
  unfold QueryMotdImpl.
  destruct (getaddrinfo P host (to_string port) w) as [[[status res] w1] t1].
  destruct (negb (status =? 0)); [reflexivity|].
  now rewrite (probe_loop_buffer_irrelevant res timeout recvBuf0 recvBuf0' w1).
Qed.

Lemma length_string_of_list_byte (bytes : list byte) :
  String.length (string_of_list_byte bytes) = List.length bytes.
Proof.
  unfold string_of_list_byte.
  induction bytes as [|b bytes IH]; cbn; [reflexivity | now f_equal].
Qed.

Lemma attempt_shape_payload_length addr timeoutMs evs payload :
  attempt_shape addr timeoutMs evs (Some payload) ->
  (1 <= List.length payload <= recvBuf_size - 35)%nat.
Proof.
  remember (Some payload) as p eqn:Hp.
  destruct 1; try discriminate.
  assert (Heq : payload = skipn 35 stored) by congruence.
  rewrite Heq, length_skipn. lia.
Qed.

(** X2: a text that the routine returns is never empty and never longer
    than 989 bytes (the 1024 of the receive buffer less the 35 of the
    header). *)
Theorem returned_text_length host port timeout recvBuf0 (w : world P) text :
  result (QueryMotdImpl P host port timeout recvBuf0 w) = Returns text ->
  (1 <= String.length text <= 989)%nat.
Proof.
  intros Htext.
  destruct (Z.eq_dec (resolution_status P host port w) 0) as [Hst|Hst].
  2: { rewrite (QueryMotdImpl_unresolved P _ _ _ _ _ Hst) in Htext.
       discriminate. }
  destruct (QueryMotdImpl_resolved P host port timeout recvBuf0 w Hst)
    as (p & Hloop & _ & Hres).
  rewrite Hres in Htext. destruct p as [payload|]; [|discriminate].
  injection Htext as <-.
  destruct (loop_shape_winner _ _ _ _ Hloop) as (_ & winner & _ & _ & _ & Hsh).
  apply attempt_shape_payload_length in Hsh.
  rewrite length_string_of_list_byte.
  unfold recvBuf_size in *. lia.
Qed.

Lemma attempt_shape_descriptors addr timeoutMs evs payload rest :
  attempt_shape addr timeoutMs evs payload ->
  descriptors [] (evs ++ rest) = descriptors [] rest.
Proof.
  destruct 1; cbn; unfold INVALID_SOCKET_VALUE;
    rewrite ?eqb_minus_one by assumption; cbn; rewrite ?Z.eqb_refl; cbn;
    try reflexivity;
    destruct (Z.eq_dec fd fd) as [_|Hne]; try reflexivity; now destruct Hne.
Qed.

Lemma attempt_shape_peak addr timeoutMs evs payload rest :
  attempt_shape addr timeoutMs evs payload ->
  (peak_open 0 rest <= 1)%nat -> (peak_open 0 (evs ++ rest) <= 1)%nat.
Proof.
  destruct 1; cbn -[Nat.max]; unfold INVALID_SOCKET_VALUE;
    rewrite ?eqb_minus_one by assumption; cbn -[Nat.max]; lia.
Qed.

Lemma loop_shape_descriptors timeoutMs addrs its payload :
  loop_shape timeoutMs addrs its payload ->
  descriptors [] (List.concat (map snd its)) = Some [] /\
  (peak_open 0 (List.concat (map snd its)) <= 1)%nat.
Proof.
  induction 1; cbn [map snd List.concat].
  - split; [reflexivity | cbn; lia].
  - split.
    + now rewrite (attempt_shape_descriptors _ _ _ _ [] H).
    + apply (attempt_shape_peak _ _ _ _ [] H). cbn; lia.
  - destruct IHloop_shape as [Hd Hp]. split.
    + now rewrite (attempt_shape_descriptors _ _ _ _ _ H).
    + now apply (attempt_shape_peak _ _ _ _ _ H).
Qed.

(** X3: in every run, also one that throws, each call on a descriptor is
    made while that descriptor is open, no descriptor is closed twice, at
    most one descriptor is open at any time, and none is left open when
    the routine is left. *)
Theorem descriptors_are_used_open_and_closed host port timeout recvBuf0
  (w : world P) :
  descriptors [] (calls (QueryMotdImpl P host port timeout recvBuf0 w))
  = Some [] /\
  (peak_open 0 (calls (QueryMotdImpl P host port timeout recvBuf0 w)) <= 1)%nat.
Proof.
  unfold calls. rewrite resolution_is_one_call.
  destruct (QueryMotdImpl_iterations P host port timeout recvBuf0 w)
    as (addrs & p & Hloop & _).
  destruct (loop_shape_descriptors _ _ _ _ Hloop) as [Hd Hp].
  split; [exact Hd|]. cbn. cbn in Hp. lia.
Qed.




End Routine.

(** ** Continuations that throw *)

(** X6: when the probe succeeds and the success continuation throws, the
    exception is caught by the same handlers as a failure of the probe: a
    non-empty error continuation is called with it, after the success
    continuation and on the state that one left; with an empty error
    continuation the exception is dropped. *)
Theorem throwing_onSuccess_reaches_onError (U : Type) text
  (f : string -> U -> U * option exn) (g : exn -> U -> U * option exn)
  (u u1 : U) e :
  f text u = (u1, Some e) ->
  invoked (thread_body U (Returns text) (Some f) (Some g) u)
  = [OnSuccess text; OnError (caught e)] /\
  (caller (thread_body U (Returns text) (Some f) (Some g) u),
   escaped (thread_body U (Returns text) (Some f) (Some g) u))
  = g (caught e) u1 /\
  thread_body U (Returns text) (Some f) None u
  = mk_thread_end U u1 [OnSuccess text] None.
Proof.
  intros Hf. unfold thread_body, call_onSuccess, call_onError.
  rewrite Hf. cbn. destruct (g (caught e) u1) as [u2 thrown]. cbn.
  repeat split.
Qed.

(** X7: an exception leaves the body of the thread only when the error
    continuation is not empty and the exception is the one thrown by its
    call; the continuations are called at most twice in all, the error
    continuation at most once. *)
Theorem only_onError_escapes (U : Type) probe onSuccess onError (u : U) :
  (forall e,
     escaped (thread_body U probe onSuccess onError u) = Some e ->
     exists g a u0,
       onError = Some g /\
       g a u0 = (caller (thread_body U probe onSuccess onError u), Some e)) /\
  (onError = None -> escaped (thread_body U probe onSuccess onError u) = None)
  /\
  (List.length (invoked (thread_body U probe onSuccess onError u)) <= 2)%nat /\
  (List.length
     (filter (fun i => match i with OnError _ => true | _ => false end)
        (invoked (thread_body U probe onSuccess onError u))) <= 1)%nat.
Proof.
  unfold thread_body, call_onSuccess, call_onError.
  destruct probe as [text|e0]; cbn.
  - destruct onSuccess as [f|]; cbn.
    + destruct (f text u) as [u1 [e1|]] eqn:Hf; cbn.
      * destruct onError as [g|]; cbn.
        -- destruct (g (caught e1) u1) as [u2 thrown] eqn:Hg; cbn.
           repeat split; try lia; try discriminate.
           intros e ->. eauto.
        -- repeat split; try lia; discriminate.
      * repeat split; try lia; discriminate.
    + repeat split; try lia; discriminate.
  - destruct onError as [g|]; cbn.
    + destruct (g (caught e0) u) as [u2 thrown] eqn:Hg; cbn.
      repeat split; try lia; try discriminate.
      intros e ->. eauto.
    + repeat split; try lia; discriminate.
Qed.

(** ** Fields and what the objects own *)

Lemma length_set_field this v objs :
  List.length (set_field this v objs) = List.length objs.
Proof.
  revert this; induction objs as [|x objs IH]; intros [|this]; cbn; auto.
Qed.

Lemma nth_set_field_eq this v objs d :
  (this < List.length objs)%nat -> nth this (set_field this v objs) d = v.
Proof.
  revert this; induction objs as [|x objs IH]; intros [|this]; cbn;
    intros Hlt; try lia; auto. apply IH. lia.
Qed.

Lemma nth_set_field_neq this k v objs d :
  this <> k -> nth k (set_field this v objs) d = nth k objs d.
Proof.
  revert this k; induction objs as [|x objs IH]; intros [|this] [|k] Hne;
    cbn; auto; try contradiction.
Qed.

Lemma owned_cons null x objs :
  owned null (x :: objs) = owned null [x] ++ owned null objs.
Proof. unfold owned. cbn. now destruct (negb (x =? null)). Qed.

Lemma owned_app null objs objs' :
  owned null (objs ++ objs') = owned null objs ++ owned null objs'.
Proof. apply filter_app. Qed.

Lemma owned_null null : owned null [null] = [].
Proof. unfold owned. cbn. now rewrite Z.eqb_refl. Qed.

(** Assigning to a field exchanges what the object owned for what it is
    given. *)
Lemma owned_set_field null this v objs :
  (this < List.length objs)%nat ->
  Permutation (owned null [nth this objs null]
               ++ owned null (set_field this v objs))
              (owned null [v] ++ owned null objs).
Proof.
  revert this; induction objs as [|x objs IH]; intros [|this] Hlt;
    cbn [List.length] in Hlt; try lia; cbn [nth set_field].
  - rewrite (owned_cons null v objs), (owned_cons null x objs).
    apply Permutation_app_swap_app.
  - rewrite (owned_cons null x (set_field this v objs)),
      (owned_cons null x objs).
    rewrite Permutation_app_swap_app.
    rewrite (Permutation_app_swap_app (owned null [v])).
    apply Permutation_app_head, IH. lia.
Qed.

Section OwnerFacts.

Variable null : Z.

Lemma own_release_spec this objs :
  Permutation (owned null objs)
    (owned null (fst (own_release null this objs))
     ++ snd (own_release null this objs)) /\
  nth this (fst (own_release null this objs)) null = null /\
  List.length (fst (own_release null this objs)) = List.length objs /\
  (forall k, k <> this ->
     nth k (fst (own_release null this objs)) null = nth k objs null).
Proof.
  unfold own_release.
  destruct (Z.eqb_spec (nth this objs null) null) as [Heq|Hne]; cbn.
  - rewrite app_nil_r. repeat split; auto.
  - assert (Hlt : (this < List.length objs)%nat).
    { destruct (Nat.lt_ge_cases this (List.length objs)) as [H|H]; trivial.
      rewrite nth_overflow in Hne by exact H. contradiction. }
    repeat split.
    + pose proof (owned_set_field null this null objs Hlt) as Hp.
      rewrite owned_null in Hp. cbn [app] in Hp.
      rewrite <- Hp. unfold owned at 1. cbn.
      destruct (Z.eqb_spec (nth this objs null) null); [contradiction|].
      cbn. apply Permutation_cons_append.
    + now apply nth_set_field_eq.
    + apply length_set_field.
    + intros k Hk. apply nth_set_field_neq. auto.
Qed.

Lemma own_move_new_spec other objs :
  (other < List.length objs)%nat ->
  Permutation (owned null objs) (owned null (own_move_new null other objs)).
Proof.
  intros Hlt. unfold own_move_new. rewrite owned_app.
  pose proof (owned_set_field null other null objs Hlt) as Hp.
  rewrite owned_null in Hp. cbn [app] in Hp. rewrite <- Hp.
  apply Permutation_app_comm.
Qed.

Lemma own_move_assign_spec this other objs :
  (this < List.length objs)%nat -> (other < List.length objs)%nat ->
  Permutation (owned null objs)
    (owned null (fst (own_move_assign null this other objs))
     ++ snd (own_move_assign null this other objs)) /\
  List.length (fst (own_move_assign null this other objs))
  = List.length objs.
Proof.
  intros Hthis Hother. unfold own_move_assign.
  destruct (Nat.eqb_spec this other) as [Heq|Hne]; cbn [negb].
  { cbn. rewrite app_nil_r. auto. }
  destruct (own_release_spec this objs) as (Hperm & Hnull & Hlen & Hrest).
  destruct (own_release null this objs) as [objs1 released].
  cbn [fst snd] in *. split.
  2: { now rewrite !length_set_field. }
  rewrite Hperm. apply Permutation_app_tail.
  pose proof (owned_set_field null other null objs1 ltac:(lia)) as H1.
  rewrite owned_null in H1. cbn [app] in H1.
  pose proof (owned_set_field null this (nth other objs1 null)
                (set_field other null objs1)
                ltac:(rewrite length_set_field; lia)) as H2.
  rewrite nth_set_field_neq, Hnull, owned_null in H2 by auto.
  cbn [app] in H2. rewrite H2. symmetry. exact H1.
Qed.

Lemma own_step_spec op objs :
  ops_ok (List.length objs) [op] = true ->
  Permutation (owned null objs ++ acquired null [op])
    (owned null (fst (own_step null op objs)) ++ snd (own_step null op objs))
  /\ ops_ok (List.length (fst (own_step null op objs))) []
     = true /\
  forall ops,
    ops_ok (List.length objs) (op :: ops)
    = ops_ok (List.length (fst (own_step null op objs))) ops
      && ops_ok (List.length objs) [op].
Proof.
  intros Hok. destruct op as [r|other|this other|this|this];
    cbn [ops_ok] in Hok; rewrite ?andb_true_r in Hok;
    rewrite ?andb_true_iff in Hok; cbn [own_step fst snd acquired ops_ok].
  - rewrite owned_app, !app_nil_r. repeat split; trivial.
    intros ops. rewrite length_app, Nat.add_1_r, andb_true_r. reflexivity.
  - apply Nat.ltb_lt in Hok. rewrite !app_nil_r. repeat split.
    + now apply own_move_new_spec.
    + intros ops. unfold own_move_new.
      rewrite length_app, length_set_field, Nat.add_1_r, andb_true_r.
      apply andb_comm.
    - destruct Hok as [Hthis Hother].
      apply Nat.ltb_lt in Hthis, Hother.
      destruct (own_move_assign_spec this other objs Hthis Hother)
        as [Hperm Hlen].
      rewrite app_nil_r, Hlen. repeat split; trivial.
      intros ops. rewrite andb_true_r. apply andb_comm.
  - destruct (own_release_spec this objs) as (Hperm & _ & Hlen & _).
    rewrite app_nil_r, Hlen. repeat split; trivial.
    intros ops. rewrite andb_true_r. apply andb_comm.
  - destruct (own_release_spec this objs) as (Hperm & _ & Hlen & _).
    rewrite app_nil_r, Hlen. repeat split; trivial.
    intros ops. rewrite andb_true_r. apply andb_comm.
Qed.

Lemma own_run_conserves ops :
  forall objs,
    ops_ok (List.length objs) ops = true ->
    Permutation (owned null objs ++ acquired null ops)
      (owned null (fst (own_run null ops objs)) ++ snd (own_run null ops objs)).
Proof.
  induction ops as [|op ops IH]; intros objs Hok.
  - cbn. reflexivity.
  - assert (Hop : ops_ok (List.length objs) [op] = true).
    { destruct op; cbn [ops_ok] in *; rewrite ?andb_true_r;
        rewrite ?andb_true_iff in *; tauto. }
    destruct (own_step_spec op objs Hop) as (Hperm & _ & Hsplit).
    rewrite Hsplit, Hop, andb_true_r in Hok.
    specialize (IH _ Hok).
    cbn [own_run].
    destruct (own_step null op objs) as [objs1 released1].
    cbn [fst snd] in *.
    destruct (own_run null ops objs1) as [objs2 released2].
    cbn [fst snd] in *.
    assert (Hacq : acquired null (op :: ops)
                   = acquired null [op] ++ acquired null ops).
    { destruct op; cbn [acquired]; rewrite ?app_nil_r; reflexivity. }
    rewrite Hacq, app_assoc, Hperm, <- app_assoc.
    rewrite (Permutation_app_comm released1), app_assoc, IH.
    rewrite <- app_assoc. apply Permutation_app_head, Permutation_app_comm.
Qed.

End OwnerFacts.

Lemma NoDup_app_disjoint (l l' : list Z) :
  NoDup (l ++ l') -> forall a, In a l -> ~ In a l'.
Proof.
  induction l as [|x l IH]; cbn; intros Hnd a Hin; [contradiction|].
  apply NoDup_cons_iff in Hnd as [Hx Hnd].
  destruct Hin as [->|Hin]; [|now apply IH].
  intros Ha. apply Hx, in_or_app. now right.
Qed.

Lemma closed_map_EvClose (fds : list Z) : closed (map EvClose fds) = fds.
Proof. induction fds as [|fd fds IH]; cbn; [reflexivity | now f_equal]. Qed.

(** ** [SocketHandle] *)

Section SocketHandleFacts.

Context (P : Platform).

Lemma SocketHandle_close_refines this objs (w : world P) :
  fst (fst (SocketHandle_close P this objs w))
  = fst (own_release INVALID_SOCKET_VALUE this objs) /\
  snd (SocketHandle_close P this objs w)
  = map EvClose (snd (own_release INVALID_SOCKET_VALUE this objs)).
Proof.
  unfold SocketHandle_close, own_release.
  now destruct (negb (nth this objs INVALID_SOCKET_VALUE
                      =? INVALID_SOCKET_VALUE)).
Qed.

Lemma SocketHandle_step_refines op objs (w : world P) :
  fst (fst (SocketHandle_step P op objs w))
  = fst (own_step INVALID_SOCKET_VALUE op objs) /\
  snd (SocketHandle_step P op objs w)
  = map EvClose (snd (own_step INVALID_SOCKET_VALUE op objs)).
Proof.
  destruct op as [r|other|this other|this|this];
    cbn [SocketHandle_step own_step];
    try (split; reflexivity);
    try apply SocketHandle_close_refines.
  unfold SocketHandle_move_assign, own_move_assign, bind, ret.
  destruct (negb (this =? other)%nat); [|split; reflexivity].
  destruct (SocketHandle_close_refines this objs w) as [Hobjs Hevs].
  destruct (SocketHandle_close P this objs w) as [[objs1 w1] evs].
  destruct (own_release INVALID_SOCKET_VALUE this objs) as [objs1' released].
  cbn [fst snd] in *. subst objs1' evs. rewrite app_nil_r. split; reflexivity.
Qed.

Lemma SocketHandle_run_refines ops :
  forall objs (w : world P),
    fst (fst (SocketHandle_run P ops objs w))
    = fst (own_run INVALID_SOCKET_VALUE ops objs) /\
    snd (SocketHandle_run P ops objs w)
    = map EvClose (snd (own_run INVALID_SOCKET_VALUE ops objs)).
Proof.
  induction ops as [|op ops IH]; intros objs w; [split; reflexivity|].
  cbn [SocketHandle_run own_run]. unfold bind.
  destruct (SocketHandle_step_refines op objs w) as [Hobjs Hevs].
  destruct (SocketHandle_step P op objs w) as [[objs1 w1] evs1].
  destruct (own_step INVALID_SOCKET_VALUE op objs) as [objs1' released1].
  cbn [fst snd] in *. subst objs1' evs1.
  destruct (IH objs1 w1) as [Hobjs2 Hevs2].
  destruct (SocketHandle_run P ops objs1 w1) as [[objs2 w2] evs2].
  destruct (own_run INVALID_SOCKET_VALUE ops objs1) as [objs2' released2].
  cbn [fst snd] in *. subst objs2' evs2.
  now rewrite map_app.
Qed.

(** The handle of an iteration of the candidate loop is an object that is
    constructed from what socket returned and deleted. *)
Lemma close_handle_is_delete sock (w : world P) :
  snd (close_handle P sock w)
  = snd (SocketHandle_delete P 0 (SocketHandle_new sock []) w) /\
  snd (fst (close_handle P sock w))
  = snd (fst (SocketHandle_delete P 0 (SocketHandle_new sock []) w)).
Proof.
  unfold close_handle, SocketHandle_delete, SocketHandle_close,
    SocketHandle_new. cbn.
  now destruct (sock =? INVALID_SOCKET_VALUE).
Qed.

(** X8: closing a handle closes its descriptor when it holds one and makes
    no call otherwise; afterwards the handle holds none, so closing it
    again, or deleting it, makes no call and changes nothing. *)
Theorem SocketHandle_close_is_idempotent this objs (w : world P) :
  snd (SocketHandle_close P this objs w)
  = (if SocketHandle_bool this objs
     then [EvClose (SocketHandle_get this objs)] else []) /\
  SocketHandle_bool this (fst (fst (SocketHandle_close P this objs w)))
  = false /\
  SocketHandle_close P this (fst (fst (SocketHandle_close P this objs w)))
    (snd (fst (SocketHandle_close P this objs w)))
  = (fst (SocketHandle_close P this objs w), []) /\
  SocketHandle_delete P this (fst (fst (SocketHandle_close P this objs w)))
    (snd (fst (SocketHandle_close P this objs w)))
  = (fst (SocketHandle_close P this objs w), []).
Proof.
  assert (Hbool : SocketHandle_bool this
                    (fst (fst (SocketHandle_close P this objs w))) = false).
  { destruct (SocketHandle_close_refines this objs w) as [-> _].
    destruct (own_release_spec INVALID_SOCKET_VALUE this objs)
      as (_ & Hnull & _).
    unfold SocketHandle_bool. rewrite Hnull. now rewrite Z.eqb_refl. }
  assert (Hagain :
            SocketHandle_close P this
              (fst (fst (SocketHandle_close P this objs w)))
              (snd (fst (SocketHandle_close P this objs w)))
            = (fst (SocketHandle_close P this objs w), [])).
  { unfold SocketHandle_bool in Hbool.
    unfold SocketHandle_close at 1. rewrite Hbool.
    now destruct (SocketHandle_close P this objs w) as [[objs1 w1] evs]. }
  repeat split; trivial.
  unfold SocketHandle_close, SocketHandle_bool, SocketHandle_get.
  now destruct (negb (nth this objs INVALID_SOCKET_VALUE
                      =? INVALID_SOCKET_VALUE)).
Qed.

(** X9: a move assignment between two different handles closes the
    descriptor the target held, if it held one, and makes no other call;
    the target then holds what the source held, the source holds nothing,
    and every other handle is as before.  A move assignment of a handle to
    itself makes no call and changes nothing. *)
Theorem SocketHandle_move_assign_transfers this other objs (w : world P) :
  (this < List.length objs)%nat -> (other < List.length objs)%nat ->
  this <> other ->
  snd (SocketHandle_move_assign P this other objs w)
  = (if SocketHandle_bool this objs
     then [EvClose (SocketHandle_get this objs)] else []) /\
  SocketHandle_get this (fst (fst (SocketHandle_move_assign P this other objs w)))
  = SocketHandle_get other objs /\
  SocketHandle_bool other
    (fst (fst (SocketHandle_move_assign P this other objs w))) = false /\
  (forall k, k <> this -> k <> other ->
     SocketHandle_get k
       (fst (fst (SocketHandle_move_assign P this other objs w)))
     = SocketHandle_get k objs) /\
  SocketHandle_move_assign P this this objs w = (objs, w, []).
Proof.
  intros Hthis Hother Hne.
  split; [|split; [|split; [|split]]].
  5: { unfold SocketHandle_move_assign. now rewrite Nat.eqb_refl. }
  all: unfold SocketHandle_move_assign, bind, ret;
    destruct (Nat.eqb_spec this other) as [|_]; [contradiction|];
    cbn [negb];
    destruct (SocketHandle_close_is_idempotent this objs w) as (Hevs & _);
    destruct (SocketHandle_close_refines this objs w) as [Hobjs _];
    destruct (own_release_spec INVALID_SOCKET_VALUE this objs)
      as (_ & Hnull & Hlen & Hrest);
    destruct (SocketHandle_close P this objs w) as [[objs1 w1] evs];
    cbn [fst snd] in *; rewrite <- Hobjs in Hnull, Hlen, Hrest;
    unfold SocketHandle_get, SocketHandle_bool.
  - now rewrite app_nil_r.
  - rewrite nth_set_field_eq by (rewrite length_set_field; lia).
    now apply Hrest.
  - rewrite nth_set_field_neq by exact Hne.
    rewrite nth_set_field_eq by lia. now rewrite Z.eqb_refl.
  - intros k Hk1 Hk2.
    rewrite !nth_set_field_neq by auto. now apply Hrest.
Qed.

(** X10: a move construction makes no call; the new handle holds what the
    source held and the source holds nothing, so that deleting the source
    makes no call and deleting the new handle closes the descriptor, if
    there is one. *)
Theorem SocketHandle_move_new_transfers other objs (w : world P) :
  (other < List.length objs)%nat ->
  SocketHandle_get (List.length objs) (SocketHandle_move_new other objs)
  = SocketHandle_get other objs /\
  SocketHandle_bool other (SocketHandle_move_new other objs) = false /\
  SocketHandle_delete P other (SocketHandle_move_new other objs) w
  = (SocketHandle_move_new other objs, w, []) /\
  snd (SocketHandle_delete P (List.length objs)
         (SocketHandle_move_new other objs) w)
  = (if SocketHandle_bool other objs
     then [EvClose (SocketHandle_get other objs)] else []).
Proof.
  intros Hother.
  assert (Hnew : nth (List.length objs) (SocketHandle_move_new other objs)
                   INVALID_SOCKET_VALUE
                 = nth other objs INVALID_SOCKET_VALUE).
  { unfold SocketHandle_move_new.
    rewrite app_nth2 by (rewrite length_set_field; lia).
    now rewrite length_set_field, Nat.sub_diag. }
  assert (Hold : nth other (SocketHandle_move_new other objs)
                   INVALID_SOCKET_VALUE = INVALID_SOCKET_VALUE).
  { unfold SocketHandle_move_new.
    rewrite app_nth1 by (rewrite length_set_field; lia).
    now apply nth_set_field_eq. }
  unfold SocketHandle_delete, SocketHandle_close, SocketHandle_get,
    SocketHandle_bool.
  rewrite Hnew, Hold, Z.eqb_refl. cbn [negb].
  repeat split.
  now destruct (negb (nth other objs INVALID_SOCKET_VALUE
                      =? INVALID_SOCKET_VALUE)).
Qed.

(** X11: over any sequence of constructions, moves, closes and deletions
    on handles that exist, the descriptors held at the start and those
    handed to constructors are, counted with multiplicity, the ones still
    held at the end and the ones closed; the only calls made are closes.
    So when they are all different, no descriptor is closed twice, no
    two handles hold the same one, and none that was closed is still
    held. *)
Theorem SocketHandle_conserves_descriptors ops objs (w : world P) :
  ops_ok (List.length objs) ops = true ->
  Permutation
    (owned INVALID_SOCKET_VALUE objs ++ acquired INVALID_SOCKET_VALUE ops)
    (owned INVALID_SOCKET_VALUE (fst (fst (SocketHandle_run P ops objs w)))
     ++ closed (snd (SocketHandle_run P ops objs w))) /\
  snd (SocketHandle_run P ops objs w)
  = map EvClose (closed (snd (SocketHandle_run P ops objs w))) /\
  (NoDup (owned INVALID_SOCKET_VALUE objs
          ++ acquired INVALID_SOCKET_VALUE ops) ->
   NoDup (closed (snd (SocketHandle_run P ops objs w))) /\
   NoDup (owned INVALID_SOCKET_VALUE
            (fst (fst (SocketHandle_run P ops objs w)))) /\
   forall fd,
     In fd (closed (snd (SocketHandle_run P ops objs w))) ->
     ~ In fd (owned INVALID_SOCKET_VALUE
                (fst (fst (SocketHandle_run P ops objs w))))).
Proof.
  intros Hok.
  destruct (SocketHandle_run_refines ops objs w) as [Hobjs Hevs].
  pose proof (own_run_conserves INVALID_SOCKET_VALUE ops objs Hok) as Hperm.
  rewrite Hevs, closed_map_EvClose, Hobjs.
  split; [exact Hperm | split; [reflexivity|]].
  intros Hnd. apply (Permutation_NoDup Hperm) in Hnd.
  repeat split.
  - exact (NoDup_app_remove_l _ _ Hnd).
  - exact (NoDup_app_remove_r _ _ Hnd).
  - intros fd Hfd Hheld. exact (NoDup_app_disjoint _ _ Hnd fd Hheld Hfd).
Qed.

End SocketHandleFacts.

(** ** [AddrInfoPtr] *)

Lemma AddrInfoPtr_run_refines ops :
  forall objs, AddrInfoPtr_run ops objs = own_run 0 ops objs.
Proof.
  induction ops as [|op ops IH]; intros objs; [reflexivity|].
  cbn [AddrInfoPtr_run own_run].
  assert (Hstep : AddrInfoPtr_step op objs = own_step 0 op objs)
    by (destruct op; reflexivity).
  rewrite Hstep. destruct (own_step 0 op objs) as [objs1 released1].
  now rewrite IH.
Qed.

(** X12: over any sequence of constructions, moves, resets and deletions
    on [AddrInfoPtr] objects that exist, the lists held at the start and
    those handed to constructors are, counted with multiplicity, the ones
    still held at the end and the ones handed to freeaddrinfo.  So when
    they are all different, no list is freed twice and none that was freed
    is still held. *)
Theorem AddrInfoPtr_conserves_lists ops objs :
  ops_ok (List.length objs) ops = true ->
  Permutation (owned 0 objs ++ acquired 0 ops)
    (owned 0 (fst (AddrInfoPtr_run ops objs))
     ++ snd (AddrInfoPtr_run ops objs)) /\
  (NoDup (owned 0 objs ++ acquired 0 ops) ->
   NoDup (snd (AddrInfoPtr_run ops objs)) /\
   NoDup (owned 0 (fst (AddrInfoPtr_run ops objs))) /\
   forall ai,
     In ai (snd (AddrInfoPtr_run ops objs)) ->
     ~ In ai (owned 0 (fst (AddrInfoPtr_run ops objs)))).
Proof.
  intros Hok. rewrite AddrInfoPtr_run_refines.
  pose proof (own_run_conserves 0 ops objs Hok) as Hperm.
  split; [exact Hperm|].
  intros Hnd. apply (Permutation_NoDup Hperm) in Hnd.
  repeat split.
  - exact (NoDup_app_remove_l _ _ Hnd).
  - exact (NoDup_app_remove_r _ _ Hnd).
  - intros ai Hai Hheld. exact (NoDup_app_disjoint _ _ Hnd ai Hheld Hai).
Qed.

(** ** Runs of the wrappers *)

Example run_handles :
  let r := SocketHandle_run Scripted
             [New 3; New 4; MoveAssign 0 1; MoveNew 0; Release 1;
              Delete 0; Delete 2; Delete 2]
             [] answering in
  fst (fst r) = [-1; -1; -1] /\ snd r = [EvClose 3; EvClose 4].
Proof. split; reflexivity. Qed.

Example run_addrinfo_pointers :
  AddrInfoPtr_run [New 0; New 7; MoveAssign 0 1; MoveAssign 0 0; Release 1;
                   Delete 0] []
  = ([0; 0], [7]).
Proof. reflexivity. Qed.

Example descriptors_reject_use_after_close :
  descriptors [] [EvSocket 2 3; EvClose 3; EvSendTo 3 queryBuf [] 33] = None /\
  descriptors [] [EvSocket 2 3; EvClose 3; EvClose 3] = None /\
  descriptors [] [EvSocket 2 3] = Some [3] /\
  peak_open 0 [EvSocket 2 3; EvSocket 2 4; EvClose 3; EvClose 4] = 2%nat.
Proof. repeat split. Qed.

Lemma returned_text_length_witness :
  result (QueryMotdImpl Scripted "localhost" 19132 5000 [] answering)
  = Returns "MCPE;x" /\
  (1 <= String.length "MCPE;x" <= 989)%nat.
Proof.
  assert (Htext : result (QueryMotdImpl Scripted "localhost" 19132 5000 []
                            answering) = Returns "MCPE;x") by reflexivity.
  split; [exact Htext|].
  exact (returned_text_length Scripted "localhost" 19132 5000 [] answering
           "MCPE;x" Htext).
Defined.

Lemma throwing_onSuccess_reaches_onError_witness :
  (fun (text : string) (u : list string) =>
     (text :: u, Some (StdException "onSuccess failed")))
    "MCPE;x" []
  = (["MCPE;x"], Some (StdException "onSuccess failed")) /\
  invoked (thread_body (list string) (Returns "MCPE;x") throwing_text
             note_error [])
  = [OnSuccess "MCPE;x"; OnError (StdException "onSuccess failed")] /\
  (caller (thread_body (list string) (Returns "MCPE;x") throwing_text
             note_error []),
   escaped (thread_body (list string) (Returns "MCPE;x") throwing_text
              note_error []))
  = (["onSuccess failed"; "MCPE;x"], None) /\
  thread_body (list string) (Returns "MCPE;x") throwing_text None []
  = mk_thread_end (list string) ["MCPE;x"] [OnSuccess "MCPE;x"] None.
Proof.
  split; [reflexivity|].
  exact (throwing_onSuccess_reaches_onError (list string) "MCPE;x"
           (fun text u => (text :: u, Some (StdException "onSuccess failed")))
           (fun e u => (what e :: u, None))
           [] ["MCPE;x"] (StdException "onSuccess failed") eq_refl).
Defined.

Lemma only_onError_escapes_witness :
  escaped (thread_body (list string) (Throws ForeignException) note_text
             throwing_error [])
  = Some ForeignException /\
  exists g a u0,
    throwing_error = Some g /\
    g a u0
    = (caller (thread_body (list string) (Throws ForeignException) note_text
                 throwing_error []),
       Some ForeignException).
Proof.
  assert (Hesc : escaped (thread_body (list string) (Throws ForeignException)
                            note_text throwing_error [])
                 = Some ForeignException) by reflexivity.
  split; [exact Hesc|].
  exact (proj1 (only_onError_escapes (list string) (Throws ForeignException)
                  note_text throwing_error []) ForeignException Hesc).
Defined.

Lemma SocketHandle_move_assign_transfers_witness :
  (0 < List.length [3; 4])%nat /\ (1 < List.length [3; 4])%nat /\
  0%nat <> 1%nat /\
  SocketHandle_move_assign Scripted 0 1 [3; 4] answering
  = ([4; -1], answering, [EvClose 3]) /\
  snd (SocketHandle_move_assign Scripted 0 1 [3; 4] answering)
  = (if SocketHandle_bool 0 [3; 4]
     then [EvClose (SocketHandle_get 0 [3; 4])] else []).
Proof.
  assert (H0 : (0 < List.length [3; 4])%nat) by (cbn; lia).
  assert (H1 : (1 < List.length [3; 4])%nat) by (cbn; lia).
  assert (Hne : 0%nat <> 1%nat) by discriminate.
  split; [exact H0 | split; [exact H1 | split; [exact Hne|]]].
  split; [reflexivity|].
  exact (proj1 (SocketHandle_move_assign_transfers Scripted 0 1 [3; 4]
                  answering H0 H1 Hne)).
Defined.

Lemma SocketHandle_move_new_transfers_witness :
  (0 < List.length [3])%nat /\
  SocketHandle_move_new 0 [3] = [-1; 3] /\
  SocketHandle_delete Scripted 0 (SocketHandle_move_new 0 [3]) answering
  = (SocketHandle_move_new 0 [3], answering, []).
Proof.
  assert (H0 : (0 < List.length [3])%nat) by (cbn; lia).
  split; [exact H0 | split; [reflexivity|]].
  exact (proj1 (proj2 (proj2 (SocketHandle_move_new_transfers Scripted 0 [3]
                                answering H0)))).
Defined.

Lemma SocketHandle_conserves_descriptors_witness :
  ops_ok (List.length (A:=Z) [])
    [New 3; New 4; MoveAssign 0 1; MoveNew 0; Release 1; Delete 2] = true /\
  Permutation
    (owned INVALID_SOCKET_VALUE []
     ++ acquired INVALID_SOCKET_VALUE
          [New 3; New 4; MoveAssign 0 1; MoveNew 0; Release 1; Delete 2])
    (owned INVALID_SOCKET_VALUE
       (fst (fst (SocketHandle_run Scripted
                    [New 3; New 4; MoveAssign 0 1; MoveNew 0; Release 1;
                     Delete 2] [] answering)))
     ++ closed (snd (SocketHandle_run Scripted
                       [New 3; New 4; MoveAssign 0 1; MoveNew 0; Release 1;
                        Delete 2] [] answering))).
Proof.
  assert (Hok : ops_ok (List.length (A:=Z) [])
                  [New 3; New 4; MoveAssign 0 1; MoveNew 0; Release 1;
                   Delete 2] = true) by reflexivity.
  split; [exact Hok|].
  exact (proj1 (SocketHandle_conserves_descriptors Scripted
                  [New 3; New 4; MoveAssign 0 1; MoveNew 0; Release 1;
                   Delete 2] [] answering Hok)).
Defined.

Lemma AddrInfoPtr_conserves_lists_witness :
  ops_ok (List.length [7])
    [New 9; MoveAssign 0 1; MoveNew 0; Release 2; Delete 1] = true /\
  Permutation
    (owned 0 [7]
     ++ acquired 0 [New 9; MoveAssign 0 1; MoveNew 0; Release 2; Delete 1])
    (owned 0 (fst (AddrInfoPtr_run
                     [New 9; MoveAssign 0 1; MoveNew 0; Release 2; Delete 1]
                     [7]))
     ++ snd (AddrInfoPtr_run
               [New 9; MoveAssign 0 1; MoveNew 0; Release 2; Delete 1] [7])).
Proof.
  assert (Hok : ops_ok (List.length [7])
                  [New 9; MoveAssign 0 1; MoveNew 0; Release 2; Delete 1]
                = true) by reflexivity.
  split; [exact Hok|].
  exact (proj1 (AddrInfoPtr_conserves_lists
                  [New 9; MoveAssign 0 1; MoveNew 0; Release 2; Delete 1]
                  [7] Hok)).
Defined.
